(** * Jobly: the job model's filtered listing and partial update

    A shallow embedding of [models/job.js] ([Job.findAll], [Job.update]) and of
    the helper [sqlForPartialUpdate] it calls, with the properties the
    specification states about them. *)

From Stdlib Require Import ZArith Ascii String List Bool Lia.
From Stdlib Require Import DecimalString Decimal DecimalNat DecimalZ.
From Stdlib Require Import Sorted.
From stdpp Require Import base list strings gmap.

Local Open Scope Z_scope.

(** ** JavaScript values

    The scalar values that reach the model: query parameters, payload entries
    and the columns the driver returns.  Numbers are the integers (salaries,
    identifiers, placeholder positions); fractions and NaN do not occur in the
    code paths below. *)

Inductive JsVal : Type :=
| JsUndefined
| JsNull
| JsBool (b : bool)
| JsNum (n : Z)
| JsStr (s : string).

#[global] Instance JsVal_eq_dec : EqDecision JsVal.
Proof. solve_decision. Defined.

(** [if (v)]: ToBoolean. *)
Definition truthy (v : JsVal) : bool :=
  match v with
  | JsUndefined | JsNull => false
  | JsBool b => b
  | JsNum n => negb (n =? 0)
  | JsStr s => negb (String.eqb s "")
  end.

(** [a === b] and [a !== b]: values of different types are never equal. *)
Definition strict_eq (a b : JsVal) : bool :=
  match a, b with
  | JsUndefined, JsUndefined => true
  | JsNull, JsNull => true
  | JsBool x, JsBool y => Bool.eqb x y
  | JsNum x, JsNum y => x =? y
  | JsStr x, JsStr y => String.eqb x y
  | _, _ => false
  end.

Definition strict_neq (a b : JsVal) : bool := negb (strict_eq a b).

(** ** Strings

    A string is the UTF-8 text of a JavaScript string, a sequence of bytes: a
    character of the ASCII range is one byte below 128, any other character
    is a run of bytes from 128 on.  For well-formed text one string occurs in
    another as characters exactly when it does as bytes, so [startsWith] and
    [includes] are the methods of [String.prototype]. *)

(** The letters A-Z to a-z, every other byte as it is. *)
Definition lower_ascii (c : ascii) : ascii :=
  let n := N_of_ascii c in
  if ((65 <=? n) && (n <=? 90))%N then ascii_of_N (n + 32) else c.

Fixpoint lowerAZ (s : string) : string :=
  match s with
  | EmptyString => EmptyString
  | String c s' => String (lower_ascii c) (lowerAZ s')
  end.

(** Text of ASCII characters only. *)
Definition ascii_char (c : ascii) : bool := (N_of_ascii c <? 128)%N.

Fixpoint ascii_text (s : string) : bool :=
  match s with
  | EmptyString => true
  | String c s' => ascii_char c && ascii_text s'
  end.

(** Two characters are the same letter when they are equal or when one is an
    upper-case ASCII letter and the other is the lower-case letter 32
    positions further; two strings are equal up to the case of their ASCII
    letters when they are so character by character. *)

Definition is_upper (c : ascii) : Prop :=
  (65 <= nat_of_ascii c <= 90)%nat.

Definition case_pair (u l : ascii) : Prop :=
  is_upper u /\ nat_of_ascii l = (nat_of_ascii u + 32)%nat.

Definition same_letter (a b : ascii) : Prop :=
  a = b \/ case_pair a b \/ case_pair b a.

Inductive ci_equal : string -> string -> Prop :=
| ci_equal_nil : ci_equal EmptyString EmptyString
| ci_equal_cons a b s t :
    same_letter a b -> ci_equal s t -> ci_equal (String a s) (String b t).

(** [String.prototype.toLowerCase] is a built-in of the platform.  It follows
    the Unicode case mappings, which reach beyond the ASCII letters and look
    at the neighbours of a character: a capital sigma that ends a word has a
    lower-case form of its own.  The model takes it as given. *)
Class StringBuiltins : Type := {
  toLowerCase : string -> string
}.

(** What the development uses of it: on ASCII text it maps the letters A-Z
    to a-z and leaves the rest, and two strings that differ only in the case
    of their ASCII letters have the same lower-case form. *)
Class LowerCaseLaws (SB : StringBuiltins) : Prop := {
  toLowerCase_ascii_text s : ascii_text s = true -> toLowerCase s = lowerAZ s;
  toLowerCase_letter_case s t : ci_equal s t -> toLowerCase s = toLowerCase t
}.

(** The built-in on ASCII text, where it is [lowerAZ]; the tests and the
    examples, whose strings are ASCII text, run on it. *)
#[global] Instance ascii_lower : StringBuiltins := {|
  toLowerCase := lowerAZ
|}.




(** [s.startsWith(p)] *)
Fixpoint startsWith (s p : string) {struct p} : bool :=
  match p, s with
  | EmptyString, _ => true
  | String _ _, EmptyString => false
  | String a p', String b s' => Ascii.eqb a b && startsWith s' p'
  end.

(** [s.includes(search)]: [search] occurs in [s] at some position. *)
Fixpoint includes (s search : string) : bool :=
  startsWith s search ||
  match s with
  | EmptyString => false
  | String _ s' => includes s' search
  end.

(** ** Job rows

    A row of the [jobs] table as the driver hands it to [findAll]: [salary] is
    an INTEGER column and arrives as a number, [equity] is a NUMERIC column and
    arrives as a string (or null); it is kept as a [JsVal] because the equity
    filter compares it with a number. *)

Record job : Type := mkJob {
  id : Z;
  title : string;
  salary : Z;
  equity : JsVal;
  company_handle : string
}.

#[global] Instance job_eq_dec : EqDecision job.
Proof. solve_decision. Defined.

(** ** [Job.findAll]

    [jobsRes] is [jobsRes.rows], the result of the SELECT ordered by title.
    The three arguments are typed as the specification's filter criteria: an
    optional string, an optional number and an optional boolean; an omitted
    argument is [undefined], which is falsy.  The three arrow functions handed
    to [Array.prototype.filter] come first. *)

Section FindAll.
Context {SB : StringBuiltins}.

Definition titleFilter (t : string) (job : job) : bool :=
  includes (toLowerCase job.(title)) (toLowerCase t).

Definition minSalaryFilter (m : Z) (job : job) : bool :=
  job.(salary) >=? m.

Definition hasEquityFilter (job : job) : bool :=
  strict_neq job.(equity) (JsNum 0).

Definition findAll (jobsRes : list job)
    (title : option string) (minSalary : option Z) (hasEquity : option bool)
    : list job :=
  let jobs := jobsRes in
  let jobs :=
    match title with
    | Some t => if truthy (JsStr t) then List.filter (titleFilter t) jobs else jobs
    | None => jobs
    end in
  let jobs :=
    match minSalary with
    | Some m => if truthy (JsNum m) then List.filter (minSalaryFilter m) jobs else jobs
    | None => jobs
    end in
  let jobs :=
    match hasEquity with
    | Some e => if truthy (JsBool e) then List.filter hasEquityFilter jobs else jobs
    | None => jobs
    end in
  jobs.

(** The three stages of [findAll], each the identity when its criterion is
    absent or falsy. *)
Definition stageTitle (t : option string) (l : list job) : list job :=
  match t with
  | Some t => if truthy (JsStr t) then List.filter (titleFilter t) l else l
  | None => l
  end.

Definition stageSalary (m : option Z) (l : list job) : list job :=
  match m with
  | Some m => if truthy (JsNum m) then List.filter (minSalaryFilter m) l else l
  | None => l
  end.

Definition stageEquity (e : option bool) (l : list job) : list job :=
  match e with
  | Some e => if truthy (JsBool e) then List.filter hasEquityFilter l else l
  | None => l
  end.




End FindAll.

(** ** What the specification says a filter does

    [Retains P l l'] : [l'] consists of exactly the elements of [l] that
    satisfy [P], each as often as in [l] and in the order of [l]. *)

Inductive Retains {A : Type} (P : A -> Prop) : list A -> list A -> Prop :=
| Retains_nil : Retains P [] []
| Retains_keep x l l' : P x -> Retains P l l' -> Retains P (x :: l) (x :: l')
| Retains_drop x l l' : ~ P x -> Retains P l l' -> Retains P (x :: l) l'.

(** Containment regardless of the case of the ASCII letters: the criterion
    occurs in the string up to [ci_equal]. *)
Definition CiSubstring (c s : string) : Prop :=
  exists pre mid post, s = pre +:+ mid +:+ post /\ ci_equal mid c.




(** The three rows of the model tests' fixture, in title order, a row whose
    equity is zero as the driver returns it, a row with a negative salary,
    and a row whose title is the letter A and a capital sigma. *)
Definition j1 : job := mkJob 1 "title1" 100000 (JsStr "0.01") "c1".
Definition j2 : job := mkJob 2 "title2" 200000 (JsStr "0.02") "c2".
Definition j3 : job := mkJob 3 "title2" 300000 (JsStr "0.03") "c3".
Definition jZero : job := mkJob 4 "title4" 400000 (JsStr "0") "c1".

(** ** Objects and errors

    A plain object is its own properties in [Object.keys] order.  A JavaScript
    object never holds a key twice: [wf_object] is the invariant. *)

Abbreviation JsObject := (list (string * JsVal)).

Definition keys (o : JsObject) : list string := map fst o.
Definition values (o : JsObject) : list JsVal := map snd o.

Definition wf_object (o : JsObject) : Prop := NoDup (keys o).

(** [o.k]: the property, or [undefined]. *)
Fixpoint getProp (o : JsObject) (k : string) : JsVal :=
  match o with
  | [] => JsUndefined
  | (k', v) :: o' => if String.eqb k' k then v else getProp o' k
  end.

(** [delete o.k] *)
Definition deleteProp (o : JsObject) (k : string) : JsObject :=
  List.filter (fun kv => negb (String.eqb (fst kv) k)) o.

(** What a call can throw: the two [ExpressError] subclasses the model uses,
    and a failure of the data store, which is passed on unchanged. *)
Inductive Exn : Type :=
| BadRequestError (message : string)
| NotFoundError (message : string)
| DatabaseError (message : string).

(** Number to string, as in template literals and string concatenation. *)
Definition string_of_nat (n : nat) : string :=
  NilEmpty.string_of_uint (Nat.to_uint n).

Definition string_of_Z (n : Z) : string :=
  NilEmpty.string_of_int (Z.to_int n).

(** [`${v}`]: ToString. *)
Definition toString (v : JsVal) : string :=
  match v with
  | JsUndefined => "undefined"
  | JsNull => "null"
  | JsBool true => "true"
  | JsBool false => "false"
  | JsNum n => string_of_Z n
  | JsStr s => s
  end.

(** ** [sqlForPartialUpdate]

    [helpers/sql.js] is not among the sources; its test and its caller
    [Job.update] are.  The helper is modelled from section 4.1 of the
    specification. *)

Definition dquote : ascii := "034"%char.

(** Modelled from the spec: the quoting of a column name, which 4.1 makes the
    helper's task (a key with characters that need quoting must be safely
    quoted).  The name stands between double quotes, and a double quote
    inside the name is written twice, as SQL reads quoted identifiers. *)
Fixpoint escapeIdent (c : string) : string :=
  match c with
  | EmptyString => EmptyString
  | String a c' =>
      if Ascii.eqb a dquote
      then String dquote (String dquote (escapeIdent c'))
      else String a (escapeIdent c')
  end.

(** Modelled from the spec: the quoted column of a fragment (4.1). *)
Definition quoteIdent (c : string) : string :=
  String dquote (escapeIdent c +:+ String dquote EmptyString).

(** Modelled from the spec: the column a payload key is written to (4.1), its
    entry in the column map when there is one, the key itself otherwise. *)
Definition columnFor (jsToSql : gmap string string) (colName : string) : string :=
  default colName (jsToSql !! colName).

(** Modelled from the spec: one fragment of the clause (4.1), the quoted
    column, then =$ and the 1-based position of the key's value. *)
Definition setFragment (jsToSql : gmap string string) (idx : nat) (colName : string)
    : string :=
  quoteIdent (columnFor jsToSql colName) +:+ "=$" +:+ string_of_nat (idx + 1).

(** Modelled from the spec: [helpers/sql.js], function [sqlForPartialUpdate].
    The steps are those of 4.1: an empty payload fails before anything is
    built; each key, in iteration order, gives one fragment; the fragments
    are joined with a comma and a space; the values are returned in the same
    order.  The error is the bad-request error [Job.update]'s test expects,
    and its message is the one the helper's test expects. *)
Definition sqlForPartialUpdate (dataToUpdate : JsObject) (jsToSql : gmap string string)
    : Exn + (string * list JsVal) :=
  let ks := keys dataToUpdate in
  if (length ks =? 0)%nat then inl (BadRequestError "No data")
  else
    let cols := imap (setFragment jsToSql) ks in
    inr (String.concat ", " cols, values dataToUpdate).

(** ** [Job.update]

    [query] stands for [db.query]: it takes the statement, the bound values and
    the state of the data store, and gives the rows of the result (or the
    message of a failure) and the new state.  The payload is an object the
    caller still holds, so the state it is left in is part of the result. *)

Record UpdateResult (Db : Type) : Type := mkUpdateResult {
  data_after : JsObject;
  db_after : Db;
  outcome : Exn + JsObject
}.
Arguments mkUpdateResult {Db} _ _ _.
Arguments data_after {Db} _.
Arguments db_after {Db} _.
Arguments outcome {Db} _.

(** The template literal of the statement: its three constant pieces, and the
    two interpolated strings between them. *)
Definition sqlHead : string :=
  "UPDATE jobs 
                      SET ".

Definition sqlWhere : string :=
  " 
                      WHERE id = ".

Definition sqlReturning : string :=
  " 
                      RETURNING id,
                                title, 
                                salary, 
                                equity, 
                                company_handle".

Definition querySql (setCols IDVarIdx : string) : string :=
  sqlHead +:+ setCols +:+ sqlWhere +:+ IDVarIdx +:+ sqlReturning.

Section JobUpdate.
Context {Db : Type}.
Variable query : string -> list JsVal -> Db -> (string + list JsObject) * Db.

Definition update (ID : JsVal) (data : JsObject) (db : Db) : UpdateResult Db :=
  let data := if truthy (getProp data "id") then deleteProp data "id" else data in
  let data :=
    if truthy (getProp data "company_handle")
    then deleteProp data "company_handle" else data in
  match sqlForPartialUpdate data ∅ with
  | inl e => mkUpdateResult data db (inl e)
  | inr (setCols, vals) =>
      let IDVarIdx := "$" +:+ string_of_nat (length vals + 1) in
      match query (querySql setCols IDVarIdx) (vals ++ [ID]) db with
      | (inl msg, db') => mkUpdateResult data db' (inl (DatabaseError msg))
      | (inr rows, db') =>
          match rows with
          | [] => mkUpdateResult data db' (inl (NotFoundError ("No job: " +:+ toString ID)))
          | job :: _ => mkUpdateResult data db' (inr job)
          end
      end
  end.
End JobUpdate.

(** The payload as [update] leaves it. *)
Definition cleaned (data : JsObject) : JsObject :=
  let data := if truthy (getProp data "id") then deleteProp data "id" else data in
  if truthy (getProp data "company_handle")
  then deleteProp data "company_handle" else data.

(** ** The data store

    The data store behind [db.query] is outside the repository.  The model
    reads a statement the way a SQL front end does, split into tokens and
    parsed as an UPDATE, and runs it on a table of rows. *)

Inductive token : Type :=
| TWord (w : string)        (* keyword or bare identifier *)
| TIdent (c : string)       (* quoted identifier, unescaped *)
| TParam (n : nat)          (* positional placeholder $n *)
| TComma
| TEq.

#[global] Instance token_eq_dec : EqDecision token.
Proof. solve_decision. Defined.

Inductive lex_mode : Type :=
| LIdle
| LWord (acc : string)
| LQuoted (acc : string)      (* inside a quoted identifier *)
| LQuoteSeen (acc : string)   (* a double quote inside it: its end, or half of a doubled one *)
| LParam (digits : string).   (* after $ *)

Definition is_space (c : ascii) : bool :=
  let n := N_of_ascii c in
  ((n =? 32) || (n =? 9) || (n =? 10) || (n =? 13))%N.

Definition is_digit (c : ascii) : bool :=
  let n := N_of_ascii c in ((48 <=? n) && (n <=? 57))%N.

Definition is_word_char (c : ascii) : bool :=
  let n := N_of_ascii c in
  (((65 <=? n) && (n <=? 90)) || ((97 <=? n) && (n <=? 122)) || (n =? 95))%N
  || is_digit c.

Definition snoc (s : string) (c : ascii) : string := s +:+ String c EmptyString.

(** Modelled from the spec: the tokens of a parameterized statement, white
    space between them, quoted identifiers with doubled quotes inside, and
    positional placeholders (glossary: a placeholder is a positional parameter
    marker).  Tokens are collected most recent first. *)
Definition lex_start (toks : list token) (c : ascii) : option (lex_mode * list token) :=
  if is_space c then Some (LIdle, toks)
  else if Ascii.eqb c dquote then Some (LQuoted EmptyString, toks)
  else if Ascii.eqb c "$" then Some (LParam EmptyString, toks)
  else if Ascii.eqb c "," then Some (LIdle, TComma :: toks)
  else if Ascii.eqb c "=" then Some (LIdle, TEq :: toks)
  else if is_word_char c then Some (LWord (String c EmptyString), toks)
  else None.

Definition param_of_digits (ds : string) : option nat :=
  match ds with
  | EmptyString => None
  | _ => Nat.of_uint <$> NilEmpty.uint_of_string ds
  end.

(** The token a mode stands for when the text leaves it. *)
Definition lex_flush (m : lex_mode) (toks : list token) : option (list token) :=
  match m with
  | LIdle => Some toks
  | LWord w => Some (TWord w :: toks)
  | LQuoted _ => None
  | LQuoteSeen q => Some (TIdent q :: toks)
  | LParam ds => (fun n => TParam n :: toks) <$> param_of_digits ds
  end.

Definition lex_step (st : lex_mode * list token) (c : ascii)
    : option (lex_mode * list token) :=
  let '(m, toks) := st in
  match m with
  | LQuoted q =>
      if Ascii.eqb c dquote then Some (LQuoteSeen q, toks)
      else Some (LQuoted (snoc q c), toks)
  | LQuoteSeen q =>
      if Ascii.eqb c dquote then Some (LQuoted (snoc q dquote), toks)
      else toks' ← lex_flush m toks; lex_start toks' c
  | LWord w =>
      if is_word_char c then Some (LWord (snoc w c), toks)
      else toks' ← lex_flush m toks; lex_start toks' c
  | LParam ds =>
      if is_digit c then Some (LParam (snoc ds c), toks)
      else toks' ← lex_flush m toks; lex_start toks' c
  | LIdle => lex_start toks c
  end.

Fixpoint lex_run (st : lex_mode * list token) (s : string)
    : option (lex_mode * list token) :=
  match s with
  | EmptyString => Some st
  | String c s' => st' ← lex_step st c; lex_run st' s'
  end.

Definition tokenize (s : string) : option (list token) :=
  '(m, toks) ← lex_run (LIdle, []) s;
  toks ← lex_flush m toks;
  Some (rev toks).

(** The placeholders of a piece of SQL, in the order they occur. *)
Definition param_of_token (t : token) : option nat :=
  match t with
  | TParam n => Some n
  | _ => None
  end.

Definition placeholders (s : string) : option (list nat) :=
  match tokenize s with
  | Some toks => Some (omap param_of_token toks)
  | None => None
  end.

Record update_stmt : Type := mkUpdateStmt {
  st_table : string;
  st_set : list (string * nat);      (* column, placeholder *)
  st_where : string * nat;           (* column = placeholder *)
  st_returning : list string
}.

Fixpoint parse_set (toks : list token) : option (list (string * nat) * list token) :=
  match toks with
  | TIdent c :: TEq :: TParam n :: rest =>
      match rest with
      | TComma :: rest' =>
          '(l, r) ← parse_set rest'; Some ((c, n) :: l, r)
      | _ => Some ([(c, n)], rest)
      end
  | _ => None
  end.

Fixpoint parse_columns (toks : list token) : option (list string) :=
  match toks with
  | [TWord c] => Some [c]
  | TWord c :: TComma :: rest => (fun l => c :: l) <$> parse_columns rest
  | _ => None
  end.

Definition parse_update (toks : list token) : option update_stmt :=
  match toks with
  | TWord u :: TWord t :: TWord s :: rest =>
      if String.eqb u "UPDATE" && String.eqb s "SET" then
        '(asg, rest) ← parse_set rest;
        match rest with
        | TWord w :: TWord wc :: TEq :: TParam k :: TWord r :: rest =>
            if String.eqb w "WHERE" && String.eqb r "RETURNING" then
              cols ← parse_columns rest;
              Some (mkUpdateStmt t asg (wc, k) cols)
            else None
        | _ => None
        end
      else None
  | _ => None
  end.

(** The tokens of a SET clause over [cols] whose placeholders count up from
    [n], and of the whole statement. *)
Fixpoint clause_tokens (n : nat) (cols : list string) : list token :=
  match cols with
  | [] => []
  | [c] => [TIdent c; TEq; TParam n]
  | c :: cols' => TIdent c :: TEq :: TParam n :: TComma :: clause_tokens (S n) cols'
  end.

Definition statement_tokens (cols : list string) (k : nat) : list token :=
  [TWord "UPDATE"; TWord "jobs"; TWord "SET"] ++ clause_tokens 1 cols ++
  [TWord "WHERE"; TWord "id"; TEq; TParam k; TWord "RETURNING";
   TWord "id"; TComma; TWord "title"; TComma; TWord "salary"; TComma;
   TWord "equity"; TComma; TWord "company_handle"].

(** The state of the tokenizer at the end of such a clause: the last
    placeholder is still open. *)
Fixpoint clause_state (n : nat) (cols : list string) (toks : list token)
    : lex_mode * list token :=
  match cols with
  | [] => (LIdle, toks)
  | [c] => (LParam (string_of_nat n), TEq :: TIdent c :: toks)
  | c :: cols' =>
      clause_state (S n) cols' (TComma :: TParam n :: TEq :: TIdent c :: toks)
  end.

Definition jobs_columns : list string :=
  ["id"; "title"; "salary"; "equity"; "company_handle"].

Definition known_column (c : string) : bool :=
  existsb (String.eqb c) jobs_columns.

Section Store.
(** How the store compares a column with a bound value in WHERE: left open,
    nothing below depends on it. *)
Variable sql_eq : JsVal -> JsVal -> bool.

(** The bound value of placeholder [$n]. *)
Definition bound (params : list JsVal) (n : nat) : JsVal :=
  default JsNull (params !! Nat.pred n).

Definition column (r : gmap string JsVal) (c : string) : JsVal :=
  default JsNull (r !! c).

Definition assign (params : list JsVal) (r : gmap string JsVal) (a : string * nat)
    : gmap string JsVal :=
  <[a.1 := bound params a.2]> r.

Definition valid_param (params : list JsVal) (n : nat) : bool :=
  ((1 <=? n) && (n <=? length params))%nat.

(** Modelled from the spec: the data store behind [db.query] is outside the
    repository.  An UPDATE of the jobs table gives every row whose WHERE
    column equals the bound value the bound values of the SET columns, leaves
    all other columns and rows as they are, and returns the RETURNING columns
    of the rows it changed; a statement that names another table, an unknown
    column or a placeholder without a value fails and changes nothing. *)
Definition exec_update (st : update_stmt) (params : list JsVal)
    (tbl : list (gmap string JsVal))
    : (string + list JsObject) * list (gmap string JsVal) :=
  if negb (String.eqb st.(st_table) "jobs")
  then (inl "relation does not exist", tbl)
  else if negb (forallb known_column
                  (map fst st.(st_set) ++ st.(st_where).1 :: st.(st_returning)))
  then (inl "column does not exist", tbl)
  else if negb (forallb (valid_param params)
                  (map snd st.(st_set) ++ [st.(st_where).2]))
  then (inl "there is no parameter", tbl)
  else
    let hit r := sql_eq (column r st.(st_where).1) (bound params st.(st_where).2) in
    let change r := foldl (assign params) r st.(st_set) in
    let result r := map (fun c => (c, column r c)) st.(st_returning) in
    (inr (map (fun r => result (change r)) (List.filter hit tbl)),
     map (fun r => if hit r then change r else r) tbl).

Definition store_query (sql : string) (params : list JsVal)
    (tbl : list (gmap string JsVal))
    : (string + list JsObject) * list (gmap string JsVal) :=
  match tokenize sql with
  | Some toks =>
      match parse_update toks with
      | Some st => exec_update st params tbl
      | None => (inl "syntax error", tbl)
      end
  | None => (inl "syntax error", tbl)
  end.
End Store.

(** A row of the store holding the columns of a [job]. *)
Definition row_of_job (j : job) : gmap string JsVal :=
  <["id" := JsNum j.(id)]>
  (<["title" := JsStr j.(title)]>
  (<["salary" := JsNum j.(salary)]>
  (<["equity" := j.(equity)]>
  (<["company_handle" := JsStr j.(company_handle)]> ∅)))).

(** The payload of the model's update tests. *)
Definition updateData : JsObject :=
  [("company_handle", JsStr "new handle"); ("equity", JsStr "0.05");
   ("salary", JsNum 500000); ("title", JsStr "new title")].

(** A payload whose id is the falsy 0 and whose company handle is truthy. *)
Definition zeroIdData : JsObject :=
  [("id", JsNum 0); ("company_handle", JsStr "c9"); ("title", JsStr "t")].

(** ** [Job.get] and [Job.remove]

    The other calls of the model, with [query] for [db.query] as in [update].
    Each returns the state of the data store after the call and what the
    call returns or throws. *)

Definition getSql : string :=
  "SELECT
            title,
            salary,
            equity,
            company_handle
           FROM jobs
           WHERE id = $1".

Definition removeSql : string :=
  "DELETE
           FROM jobs
           WHERE id = $1
           RETURNING id".

Section JobCalls.
Context {Db : Type}.
Variable query : string -> list JsVal -> Db -> (string + list JsObject) * Db.

Definition get (ID : JsVal) (db : Db) : Db * (Exn + JsObject) :=
  match query getSql [ID] db with
  | (inl msg, db') => (db', inl (DatabaseError msg))
  | (inr rows, db') =>
      match rows with
      | [] => (db', inl (NotFoundError ("No job: " +:+ toString ID)))
      | job :: _ => (db', inr job)
      end
  end.

(** [remove] returns undefined. *)
Definition remove (ID : JsVal) (db : Db) : Db * (Exn + unit) :=
  match query removeSql [ID] db with
  | (inl msg, db') => (db', inl (DatabaseError msg))
  | (inr rows, db') =>
      match rows with
      | [] => (db', inl (NotFoundError ("No job: " +:+ toString ID)))
      | job :: _ => (db', inr tt)
      end
  end.

End JobCalls.

(** ** The data store, reading and deleting

    The SELECT by id and the DELETE by id of the model, parsed from the
    tokens of the statement and run on the same table as the UPDATE. *)

Record select_stmt : Type := mkSelectStmt {
  sel_columns : list string;
  sel_table : string;
  sel_where : string * nat
}.

Record delete_stmt : Type := mkDeleteStmt {
  del_table : string;
  del_where : string * nat;
  del_returning : list string
}.

(** A list of bare column names, up to the first token that does not
    continue it. *)
Fixpoint parse_column_list (toks : list token) : option (list string * list token) :=
  match toks with
  | TWord c :: rest =>
      match rest with
      | TComma :: rest' =>
          match parse_column_list rest' with
          | Some (l, r) => Some (c :: l, r)
          | None => None
          end
      | _ => Some ([c], rest)
      end
  | _ => None
  end.

Definition parse_select (toks : list token) : option select_stmt :=
  match toks with
  | TWord s :: rest =>
      if String.eqb s "SELECT" then
        match parse_column_list rest with
        | Some (cols, [TWord f; TWord t; TWord w; TWord wc; TEq; TParam k]) =>
            if String.eqb f "FROM" && String.eqb w "WHERE"
            then Some (mkSelectStmt cols t (wc, k))
            else None
        | _ => None
        end
      else None
  | _ => None
  end.

Definition parse_delete (toks : list token) : option delete_stmt :=
  match toks with
  | TWord d :: TWord f :: TWord t :: TWord w :: TWord wc :: TEq :: TParam k ::
    TWord r :: rest =>
      if String.eqb d "DELETE" && String.eqb f "FROM" && String.eqb w "WHERE"
         && String.eqb r "RETURNING"
      then
        match parse_columns rest with
        | Some cols => Some (mkDeleteStmt t (wc, k) cols)
        | None => None
        end
      else None
  | _ => None
  end.

Section StoreReadDelete.
Variable sql_eq : JsVal -> JsVal -> bool.

(** Modelled from the spec: a SELECT of the jobs table returns the listed
    columns of every row whose WHERE column equals the bound value, in table
    order, and changes nothing. *)
Definition exec_select (st : select_stmt) (params : list JsVal)
    (tbl : list (gmap string JsVal))
    : (string + list JsObject) * list (gmap string JsVal) :=
  if negb (String.eqb st.(sel_table) "jobs")
  then (inl "relation does not exist", tbl)
  else if negb (forallb known_column (st.(sel_where).1 :: st.(sel_columns)))
  then (inl "column does not exist", tbl)
  else if negb (valid_param params st.(sel_where).2)
  then (inl "there is no parameter", tbl)
  else
    let hit r := sql_eq (column r st.(sel_where).1) (bound params st.(sel_where).2) in
    let result r := map (fun c => (c, column r c)) st.(sel_columns) in
    (inr (map result (List.filter hit tbl)), tbl).

(** Modelled from the spec: a DELETE of the jobs table removes every row whose
    WHERE column equals the bound value, keeps the others in their order, and
    returns the RETURNING columns of the rows it removed. *)
Definition exec_delete (st : delete_stmt) (params : list JsVal)
    (tbl : list (gmap string JsVal))
    : (string + list JsObject) * list (gmap string JsVal) :=
  if negb (String.eqb st.(del_table) "jobs")
  then (inl "relation does not exist", tbl)
  else if negb (forallb known_column (st.(del_where).1 :: st.(del_returning)))
  then (inl "column does not exist", tbl)
  else if negb (valid_param params st.(del_where).2)
  then (inl "there is no parameter", tbl)
  else
    let hit r := sql_eq (column r st.(del_where).1) (bound params st.(del_where).2) in
    let result r := map (fun c => (c, column r c)) st.(del_returning) in
    (inr (map result (List.filter hit tbl)),
     List.filter (fun r => negb (hit r)) tbl).

(** The store of the jobs table: UPDATE as in [store_query], SELECT and
    DELETE by id. *)
Definition jobs_store (sql : string) (params : list JsVal)
    (tbl : list (gmap string JsVal))
    : (string + list JsObject) * list (gmap string JsVal) :=
  match tokenize sql with
  | Some toks =>
      match parse_update toks with
      | Some st => exec_update sql_eq st params tbl
      | None =>
          match parse_select toks with
          | Some st => exec_select st params tbl
          | None =>
              match parse_delete toks with
              | Some st => exec_delete st params tbl
              | None => (inl "syntax error", tbl)
              end
          end
      end
  | None => (inl "syntax error", tbl)
  end.
End StoreReadDelete.

(** Whether a payload key is one of the two [update] protects. *)
Definition protected (k : string) : bool :=
  String.eqb k "id" || String.eqb k "company_handle".

(** Rows in the order of their titles, for an ordering [le] of strings (the
    collation the SELECT of [findAll] sorts by). *)
Definition ordered_by_title (le : string -> string -> Prop) (rows : list job) : Prop :=
  StronglySorted (fun a b => le a.(title) b.(title)) rows.

(** The listed columns of a stored row, as a result row. *)
Definition row_columns (cols : list string) (r : gmap string JsVal) : JsObject :=
  map (fun c => (c, column r c)) cols.

(** The statement [update] sends for a payload [d] it has cleaned, as the
    store parses it. *)
Definition update_stmt_of (d : JsObject) : update_stmt :=
  mkUpdateStmt "jobs" (zip (keys d) (seq 1 (length (keys d))))
    ("id", (length (values d) + 1)%nat) jobs_columns.

(** * The repository's tests, run on the model *)

(** [sqlForPartialUpdate]: no data; with data; with data and column
    overrides. *)
Example test_sql_no_data :
  sqlForPartialUpdate [] ∅ = inl (BadRequestError "No data").
Proof. reflexivity. Qed.

Example test_sql_with_data :
  sqlForPartialUpdate [("name", JsStr "ethan")] ∅ =
  inr (String dquote ("name" +:+ String dquote "=$1"), [JsStr "ethan"]).
Proof. reflexivity. Qed.

Example test_sql_with_overrides :
  sqlForPartialUpdate [("name", JsStr "ethan")] {["name" := "firstName"]} =
  inr (String dquote ("firstName" +:+ String dquote "=$1"), [JsStr "ethan"]).
Proof. reflexivity. Qed.

(** [Job.findAll]: no filter; title filter; minSalary filter; hasEquity
    filter. *)
Example test_findAll_no_filter :
  findAll [j1; j2; j3] None None None = [j1; j2; j3].
Proof. reflexivity. Qed.

Example test_findAll_title :
  findAll [j1; j2; j3] (Some "title1") None None = [j1].
Proof. reflexivity. Qed.

Example test_findAll_minSalary :
  findAll [j1; j2; j3] None (Some 200000) None = [j2; j3].
Proof. reflexivity. Qed.

Example test_findAll_hasEquity :
  findAll [j1; j2; j3] None None (Some true) = [j1; j2; j3].
Proof. reflexivity. Qed.

(** [Job.update]: works (the payload's company handle is dropped, the row
    keeps its own); not found; bad request with no data. *)
Example test_update_works :
  outcome (update (store_query strict_eq) (JsNum 1) updateData
             (map row_of_job [j1; j2; j3])) =
  inr [("id", JsNum 1); ("title", JsStr "new title"); ("salary", JsNum 500000);
       ("equity", JsStr "0.05"); ("company_handle", JsStr "c1")].
Proof. reflexivity. Qed.

Example test_update_not_found :
  outcome (update (store_query strict_eq) (JsNum (-1)) updateData
             (map row_of_job [j1; j2; j3])) =
  inl (NotFoundError "No job: -1").
Proof. reflexivity. Qed.

Example test_update_no_data :
  outcome (update (store_query strict_eq) (JsNum 1) [] (map row_of_job [j1; j2; j3])) =
  inl (BadRequestError "No data").
Proof. reflexivity. Qed.

(** [Job.get]: works; not found.  [Job.remove]: works (no row with the id is
    left); not found. *)
Example test_get_works :
  (get (jobs_store strict_eq) (JsNum 1) (map row_of_job [j1; j2; j3])).2 =
  inr [("title", JsStr "title1"); ("salary", JsNum 100000);
       ("equity", JsStr "0.01"); ("company_handle", JsStr "c1")].
Proof. reflexivity. Qed.

Example test_get_not_found :
  (get (jobs_store strict_eq) (JsNum 999) (map row_of_job [j1; j2; j3])).2 =
  inl (NotFoundError "No job: 999").
Proof. reflexivity. Qed.

Example test_remove_works :
  remove (jobs_store strict_eq) (JsNum 1) (map row_of_job [j1; j2; j3]) =
  (map row_of_job [j2; j3], inr tt).
Proof. reflexivity. Qed.

Example test_remove_not_found :
  (remove (jobs_store strict_eq) (JsNum (-1)) (map row_of_job [j1; j2; j3])).2 =
  inl (NotFoundError "No job: -1").
Proof. reflexivity. Qed.

(** * Strings *)

Lemma str_app_nil_l (s : string) : EmptyString +:+ s = s.
Proof. reflexivity. Qed.

Lemma str_app_cons (a : ascii) (s t : string) : String a s +:+ t = String a (s +:+ t).
Proof. reflexivity. Qed.

Lemma str_app_nil_r (s : string) : s +:+ EmptyString = s.
Proof. induction s as [|a s IH]; [done|]. by rewrite str_app_cons, IH. Qed.

Lemma str_app_assoc (s t u : string) : (s +:+ t) +:+ u = s +:+ t +:+ u.
Proof. induction s as [|a s IH]; [done|]. by rewrite !str_app_cons, IH. Qed.

Lemma N_of_lower_ascii (c : ascii) :
  N_of_ascii (lower_ascii c) =
  (if (65 <=? N_of_ascii c) && (N_of_ascii c <=? 90)
   then N_of_ascii c + 32 else N_of_ascii c)%N.
Proof.
  unfold lower_ascii.
  destruct ((65 <=? N_of_ascii c) && (N_of_ascii c <=? 90))%N eqn:E; [|done].
  apply N_ascii_embedding.
  apply andb_true_iff in E as [_ E%N.leb_le]. lia.
Qed.

Lemma nat_of_ascii_inj (a b : ascii) : nat_of_ascii a = nat_of_ascii b -> a = b.
Proof.
  intros H. rewrite <- (ascii_nat_embedding a), <- (ascii_nat_embedding b).
  by rewrite H.
Qed.

Lemma lower_ascii_same_letter (a b : ascii) :
  lower_ascii a = lower_ascii b <-> same_letter a b.
Proof.
  assert (Hinj : lower_ascii a = lower_ascii b <->
                 N_of_ascii (lower_ascii a) = N_of_ascii (lower_ascii b)).
  { split; [by intros ->|]. intros H.
    rewrite <- (ascii_N_embedding (lower_ascii a)),
            <- (ascii_N_embedding (lower_ascii b)). by rewrite H. }
  rewrite Hinj, !N_of_lower_ascii. clear Hinj.
  unfold same_letter, case_pair, is_upper, nat_of_ascii.
  assert (Heq : a = b <-> N_of_ascii a = N_of_ascii b).
  { split; [by intros ->|]. intros H.
    rewrite <- (ascii_N_embedding a), <- (ascii_N_embedding b). by rewrite H. }
  rewrite Heq. clear Heq.
  generalize (N_of_ascii a) (N_of_ascii b). intros n m.
  destruct (65 <=? n)%N eqn:E1, (n <=? 90)%N eqn:E2,
           (65 <=? m)%N eqn:E3, (m <=? 90)%N eqn:E4; simpl;
    rewrite ?N.leb_le, ?N.leb_gt in *; lia.
Qed.

Lemma lowerAZ_ci_equal (s t : string) :
  lowerAZ s = lowerAZ t <-> ci_equal s t.
Proof.
  revert t. induction s as [|a s IH]; intros [|b t]; simpl.
  - split; [constructor|done].
  - split; [done|inversion 1].
  - split; [done|inversion 1].
  - split.
    + intros [= Hc Hs]. constructor; [by apply lower_ascii_same_letter|by apply IH].
    + inversion 1; subst. f_equal; [by apply lower_ascii_same_letter|by apply IH].
Qed.

Lemma lowerAZ_app (s t : string) :
  lowerAZ (s +:+ t) = lowerAZ s +:+ lowerAZ t.
Proof.
  induction s as [|a s IH]; [done|].
  rewrite str_app_cons. simpl. by rewrite IH, str_app_cons.
Qed.

Lemma lowerAZ_app_inv (s x y : string) :
  lowerAZ s = x +:+ y ->
  exists a b, s = a +:+ b /\ lowerAZ a = x /\ lowerAZ b = y.
Proof.
  revert s. induction x as [|c x IH]; intros s H.
  - exists EmptyString, s. by rewrite !str_app_nil_l in *.
  - destruct s as [|d s]; [done|]. rewrite str_app_cons in H. simpl in H.
    injection H as Hc Hs. destruct (IH _ Hs) as (a & b & -> & Ha & Hb).
    exists (String d a), b. rewrite str_app_cons. simpl. by rewrite Hc, Ha.
Qed.

Lemma startsWith_spec (s p : string) :
  startsWith s p = true <-> exists post, s = p +:+ post.
Proof.
  revert s. induction p as [|a p IH]; intros s; simpl.
  - split; [by exists s|done].
  - destruct s as [|b s].
    + split; [done|]. by intros [post H].
    + rewrite andb_true_iff, IH. split.
      * intros [->%Ascii.eqb_eq [post ->]]. by exists post.
      * intros [post H]. rewrite str_app_cons in H. injection H as -> ->.
        split; [apply Ascii.eqb_refl|by exists post].
Qed.

Lemma includes_spec (s c : string) :
  includes s c = true <-> exists pre post, s = pre +:+ c +:+ post.
Proof.
  induction s as [|a s IH].
  - simpl. rewrite orb_false_r, startsWith_spec. split.
    + intros [post H]. by exists EmptyString, post.
    + intros ([|b pre] & post & H); [by exists post|done].
  - cbn [includes]. rewrite orb_true_iff, startsWith_spec, IH. split.
    + intros [[post H]|(pre & post & H)].
      * by exists EmptyString, post.
      * exists (String a pre), post. by rewrite str_app_cons, H.
    + intros ([|b pre] & post & H).
      * left. by exists post.
      * right. rewrite str_app_cons in H. injection H as -> ->. by exists pre, post.
Qed.

Lemma ci_includes_spec (s c : string) :
  includes (lowerAZ s) (lowerAZ c) = true <-> CiSubstring c s.
Proof.
  unfold CiSubstring. rewrite includes_spec. split.
  - intros (pre & post & H).
    apply lowerAZ_app_inv in H as (a & b & Hs & _ & Hb).
    apply lowerAZ_app_inv in Hb as (m & c' & -> & Hm & _).
    exists a, m, c'. split; [done|]. by apply lowerAZ_ci_equal.
  - intros (pre & mid & post & -> & H%lowerAZ_ci_equal).
    exists (lowerAZ pre), (lowerAZ post).
    by rewrite !lowerAZ_app, H.
Qed.




(** The two implementations of the built-in have the properties the
    development uses. *)
Lemma ascii_lower_laws : LowerCaseLaws ascii_lower.
Proof.
  split; [done|]. intros s t H. by apply lowerAZ_ci_equal.
Qed.

#[global] Existing Instance ascii_lower_laws.


Section TitleFilter.
Context {SB : StringBuiltins} {SL : LowerCaseLaws SB}.




End TitleFilter.


(** * Properties of [findAll] *)

Section ListFacts.
Context {A : Type}.
Implicit Types (f g : A -> bool) (l : list A).

Lemma filter_Retains (P : A -> Prop) f l :
  (forall x, f x = true <-> P x) -> Retains P l (List.filter f l).
Proof.
  intros Hf. induction l as [|x l IH]; simpl.
  - constructor.
  - destruct (f x) eqn:E.
    + constructor; [by apply Hf | exact IH].
    + apply Retains_drop; [|exact IH].
      intros HP. apply Hf in HP. congruence.
Qed.

Lemma Retains_all (P : A -> Prop) l :
  (forall x, In x l -> P x) -> Retains P l l.
Proof.
  induction l as [|x l IH]; intros H; constructor.
  - apply H. by left.
  - apply IH. intros y Hy. apply H. by right.
Qed.

Lemma Retains_In (P : A -> Prop) l l' :
  Retains P l l' -> forall x, In x l' <-> In x l /\ P x.
Proof.
  induction 1 as [|x l l' HP _ IH|x l l' HP _ IH]; intros y; simpl.
  - tauto.
  - rewrite IH. split; [intros [->|[? ?]]; auto|tauto].
  - rewrite IH. split; [tauto|]. intros [[->|?] ?]; tauto.
Qed.


Lemma filter_comm f g l :
  List.filter f (List.filter g l) = List.filter g (List.filter f l).
Proof.
  induction l as [|x l IH]; simpl; [done|].
  destruct (f x) eqn:Ef, (g x) eqn:Eg; simpl; rewrite ?Ef, ?Eg, ?IH; done.
Qed.

Lemma filter_sublist f l : sublist (List.filter f l) l.
Proof.
  induction l as [|x l IH]; simpl; [constructor|].
  destruct (f x); by constructor.
Qed.

Lemma filter_In_sub f l x : In x (List.filter f l) -> In x l.
Proof. intros H. by apply List.filter_In in H as [? _]. Qed.
End ListFacts.

Section Stages.
Context {SB : StringBuiltins}.

Lemma findAll_stages rows t m e :
  findAll rows t m e = stageEquity e (stageSalary m (stageTitle t rows)).
Proof. reflexivity. Qed.




(** A stage is a [List.filter] with some predicate. *)
Lemma stageTitle_filter t : exists f, forall l, stageTitle t l = List.filter f l.
Proof.
  destruct t as [t|]; cbn [stageTitle stageSalary stageEquity]; [destruct (truthy (JsStr t))|].
  - by exists (titleFilter t).
  - exists (fun _ => true). intros l. induction l; simpl; congruence.
  - exists (fun _ => true). intros l. induction l; simpl; congruence.
Qed.

Lemma stageSalary_filter m : exists f, forall l, stageSalary m l = List.filter f l.
Proof.
  destruct m as [m|]; cbn [stageTitle stageSalary stageEquity]; [destruct (truthy (JsNum m))|].
  - by exists (minSalaryFilter m).
  - exists (fun _ => true). intros l. induction l; simpl; congruence.
  - exists (fun _ => true). intros l. induction l; simpl; congruence.
Qed.

Lemma stageEquity_filter e : exists f, forall l, stageEquity e l = List.filter f l.
Proof.
  destruct e as [e|]; cbn [stageTitle stageSalary stageEquity]; [destruct (truthy (JsBool e))|].
  - by exists hasEquityFilter.
  - exists (fun _ => true). intros l. induction l; simpl; congruence.
  - exists (fun _ => true). intros l. induction l; simpl; congruence.
Qed.

End Stages.

Lemma minSalaryFilter_spec m j : minSalaryFilter m j = true <-> m <= j.(salary).
Proof. unfold minSalaryFilter. rewrite Z.geb_le. lia. Qed.

Lemma hasEquityFilter_spec j : hasEquityFilter j = true <-> j.(equity) <> JsNum 0.
Proof.
  unfold hasEquityFilter, strict_neq. rewrite negb_true_iff.
  destruct (equity j) as [| |b|n|s]; simpl; try (split; [done|congruence]).
  rewrite Z.eqb_neq. split; congruence.
Qed.

(** ** The equity filter *)

Section EquityFilter.
Context {SB : StringBuiltins}.

(** C1: with [hasEquity] true the filter keeps exactly the rows whose equity
    is not the number zero; the comparison is strict, so a row whose equity is
    the string the driver returns for a zero NUMERIC is compared with a value
    of another type and stays in the result, where the claim has it
    excluded. *)
Theorem hasEquity_keeps_zero_string :
  findAll [j1; jZero; j2] None None (Some true) = [j1; jZero; j2] /\
  hasEquityFilter jZero = true /\
  forall rows,
    Retains (fun j => j.(equity) <> JsNum 0) rows (findAll rows None None (Some true)).
Proof.
  split; [reflexivity|]. split; [reflexivity|].
  intros rows. apply filter_Retains, hasEquityFilter_spec.
Qed.

End EquityFilter.

(** ** The title filter *)


Section TitleFilterClaim.
Context {SB : StringBuiltins} {SL : LowerCaseLaws SB}.


End TitleFilterClaim.


Section SalaryFilter.
Context {SB : StringBuiltins}.


(** Away from the falsy minimum, or when no salary is negative, the salary
    stage keeps exactly the rows with salary at least the minimum, among the
    rows the other criteria leave; a row whose salary equals the minimum is
    kept. *)
Lemma minSalary_filter_inclusive rows t m e :
  m <> 0 \/ Forall (fun j => 0 <= j.(salary)) rows ->
  Retains (fun j => m <= j.(salary)) (findAll rows t None e) (findAll rows t (Some m) e) /\
  (forall j, In j (findAll rows t None e) -> j.(salary) = m ->
             In j (findAll rows t (Some m) e)).
Proof.
  intros H. rewrite !findAll_stages.
  destruct (stageEquity_filter e) as [fe He]. rewrite !He.
  cbn [stageSalary]. set (l := stageTitle t rows).
  assert (Hl : forall j, In j l -> In j rows).
  { intros j. subst l. destruct (stageTitle_filter t) as [ft ->]. apply filter_In_sub. }
  destruct (truthy (JsNum m)) eqn:E.
  - rewrite filter_comm. split.
    + apply filter_Retains, minSalaryFilter_spec.
    + intros j Hj Hm. apply List.filter_In. split; [done|].
      apply minSalaryFilter_spec. lia.
  - simpl in E. apply negb_false_iff, Z.eqb_eq in E. subst m.
    destruct H as [H|H]; [done|]. split; [|done].
    apply Retains_all. intros j Hj%filter_In_sub%Hl.
    rewrite List.Forall_forall in H. by apply H.
Qed.

End SalaryFilter.

(** ** Filters together *)

Section FiltersTogether.
Context {SB : StringBuiltins}.





(** ** Order *)

(** C8: the result of [findAll] is a subsequence of the rows it was given:
    each row of the result is one of them, unchanged, and they stand in the
    order they had. *)
Theorem findAll_subsequence rows t m e :
  sublist (findAll rows t m e) rows /\
  Forall (fun j => In j rows) (findAll rows t m e).
Proof.
  rewrite findAll_stages.
  destruct (stageTitle_filter t) as [ft ->].
  destruct (stageSalary_filter m) as [fs ->].
  destruct (stageEquity_filter e) as [fe ->].
  split.
  - etrans; [apply filter_sublist|]. etrans; apply filter_sublist.
  - apply List.Forall_forall. intros j H. by do 3 apply filter_In_sub in H.
Qed.

End FiltersTogether.

(** * Reading back what was written *)

Lemma lex_run_app st a b :
  lex_run st (a +:+ b) =
  match lex_run st a with
  | Some st' => lex_run st' b
  | None => None
  end.
Proof.
  revert st. induction a as [|c a IH]; intros st; [done|].
  rewrite str_app_cons. simpl. destruct (lex_step st c) as [st'|]; simpl; [apply IH|done].
Qed.

Lemma snoc_app (q : string) (a : ascii) (c : string) :
  snoc q a +:+ c = q +:+ String a c.
Proof. unfold snoc. by rewrite str_app_assoc, str_app_cons, str_app_nil_l. Qed.

(** A quoted identifier is read back as the name it was made from. *)
Lemma lex_run_escapeIdent c q toks :
  lex_run (LQuoted q, toks) (escapeIdent c) = Some (LQuoted (q +:+ c), toks).
Proof.
  revert q. induction c as [|a c IH]; intros q; simpl.
  - by rewrite str_app_nil_r.
  - destruct (Ascii.eqb a dquote) eqn:E.
    + apply Ascii.eqb_eq in E. subst a. simpl. rewrite IH. by rewrite snoc_app.
    + simpl. rewrite E. simpl. rewrite IH. by rewrite snoc_app.
Qed.

Lemma lex_run_quoteIdent c toks :
  lex_run (LIdle, toks) (quoteIdent c) = Some (LQuoteSeen c, toks).
Proof.
  unfold quoteIdent. cbn [lex_run]. 
  change (lex_step (LIdle, toks) dquote) with (Some (LQuoted EmptyString, toks)).
  simpl. rewrite lex_run_app, lex_run_escapeIdent. by rewrite str_app_nil_l.
Qed.

Lemma lex_run_uint d ds toks :
  lex_run (LParam ds, toks) (NilEmpty.string_of_uint d) =
  Some (LParam (ds +:+ NilEmpty.string_of_uint d), toks).
Proof.
  revert ds. induction d; intros ds; simpl;
    [by rewrite str_app_nil_r | rewrite IHd; by rewrite snoc_app ..].
Qed.

Lemma to_uint_nonnil n : Nat.to_uint n <> Nil.
Proof.
  rewrite <- (Unsigned.of_to n) at 1. rewrite Unsigned.to_of.
  unfold unorm. by destruct (nzhead (Nat.to_uint n)).
Qed.

Lemma string_of_nat_nonempty n : string_of_nat n <> EmptyString.
Proof.
  unfold string_of_nat. pose proof (to_uint_nonnil n) as H.
  by destruct (Nat.to_uint n).
Qed.

Lemma param_of_digits_string_of_nat n : param_of_digits (string_of_nat n) = Some n.
Proof.
  unfold param_of_digits. pose proof (string_of_nat_nonempty n) as H.
  destruct (string_of_nat n) eqn:E; [done|]. rewrite <- E. unfold string_of_nat.
  rewrite NilEmpty.usu. simpl. by rewrite Unsigned.of_to.
Qed.

Lemma lex_run_param n toks :
  lex_run (LIdle, toks) ("$" +:+ string_of_nat n) =
  Some (LParam (string_of_nat n), toks).
Proof.
  rewrite str_app_cons, str_app_nil_l. cbn [lex_run].
  change (lex_step (LIdle, toks) "$") with (Some (LParam EmptyString, toks)).
  simpl. unfold string_of_nat. by rewrite lex_run_uint, str_app_nil_l.
Qed.

(** Leaving a placeholder at a character that is not a digit. *)
Lemma lex_step_param_end n toks c :
  is_digit c = false ->
  lex_step (LParam (string_of_nat n), toks) c = lex_start (TParam n :: toks) c.
Proof.
  intros H. simpl. rewrite H. simpl. by rewrite param_of_digits_string_of_nat.
Qed.

Lemma lex_run_fragment c n toks :
  lex_run (LIdle, toks) (quoteIdent c +:+ "=$" +:+ string_of_nat n) =
  Some (LParam (string_of_nat n), TEq :: TIdent c :: toks).
Proof.
  rewrite lex_run_app, lex_run_quoteIdent.
  rewrite str_app_cons. cbn [lex_run].
  change (lex_step (LQuoteSeen c, toks) "=") with (Some (LIdle, TEq :: TIdent c :: toks)).
  simpl. apply lex_run_param.
Qed.

Lemma lex_run_clause m ks n toks :
  lex_run (LIdle, toks)
    (String.concat ", " (imap (fun i => setFragment m (n + i)) ks)) =
  Some (clause_state (n + 1) (map (columnFor m) ks) toks).
Proof.
  revert n toks. induction ks as [|k ks IH]; intros n toks; [done|].
  rewrite imap_cons.
  rewrite (imap_ext _ (fun i => setFragment m (S n + i))) by (intros; simpl; f_equal; lia).
  destruct ks as [|k2 ks].
  - simpl. unfold setFragment. rewrite Nat.add_0_r. apply lex_run_fragment.
  - specialize (IH (S n)).
    change (String.concat ", " (?x :: imap ?f (k2 :: ks)))
      with (x +:+ ", " +:+ String.concat ", " (imap f (k2 :: ks))).
    rewrite lex_run_app. unfold setFragment at 1. rewrite Nat.add_0_r, lex_run_fragment.
    rewrite str_app_cons. cbn [lex_run]. rewrite lex_step_param_end by done.
    change (lex_start ?t ",") with (Some (LIdle, TComma :: t)). 
    change (?a ≫= ?f) with (f (LIdle, TComma :: TParam (n + 1) ::
                                  TEq :: TIdent (columnFor m k) :: toks)).
    cbv beta. rewrite str_app_cons, str_app_nil_l. cbn [lex_run].
    change (lex_step (LIdle, ?t) " ") with (Some (LIdle, t)).
    change (Some ?a ≫= ?f) with (f a). cbv beta.
    rewrite IH. reflexivity.
Qed.

Lemma clause_state_tokens n cols toks :
  cols <> [] ->
  exists k ts,
    clause_state n cols toks = (LParam (string_of_nat k), ts) /\
    rev (TParam k :: ts) = rev toks ++ clause_tokens n cols.
Proof.
  revert n toks. induction cols as [|c cols IH]; intros n toks Hne; [done|].
  destruct cols as [|c2 cols].
  - exists n, (TEq :: TIdent c :: toks). split; [done|].
    simpl. by rewrite <- !List.app_assoc.
  - destruct (IH (S n) (TComma :: TParam n :: TEq :: TIdent c :: toks)) as (k & ts & E & R);
      [done|].
    exists k, ts. split; [exact E|]. rewrite R.
    cbn [rev clause_tokens]. by rewrite <- !List.app_assoc.
Qed.

Lemma placeholders_clause_tokens n cols :
  omap param_of_token (clause_tokens n cols) = seq n (length cols).
Proof.
  revert n. induction cols as [|c cols IH]; intros n; [done|].
  destruct cols as [|c2 cols]; [done|].
  change (clause_tokens n (c :: c2 :: cols))
    with (TIdent c :: TEq :: TParam n :: TComma :: clause_tokens (S n) (c2 :: cols)).
  change (omap param_of_token (TIdent c :: TEq :: TParam n :: TComma :: ?l))
    with (n :: omap param_of_token l).
  rewrite IH. reflexivity.
Qed.

(** The SET clause is read back as one quoted column, an equals sign and a
    placeholder per key, separated by commas. *)
Lemma tokenize_clause m ks :
  ks <> [] ->
  tokenize (String.concat ", " (imap (setFragment m) ks)) =
  Some (clause_tokens 1 (map (columnFor m) ks)).
Proof.
  intros Hne. unfold tokenize.
  pose proof (lex_run_clause m ks 0 []) as H.
  change (fun i => setFragment m (0 + i)) with (setFragment m) in H.
  change (0 + 1)%nat with 1%nat in H. rewrite H. clear H.
  destruct (clause_state_tokens 1 (map (columnFor m) ks) []) as (k & ts & E & R).
  { by destruct ks. }
  rewrite E. simpl. rewrite param_of_digits_string_of_nat. simpl.
  simpl in R. by rewrite R.
Qed.

(** * Properties of [sqlForPartialUpdate] *)

Lemma remove_dups_NoDup {A} `{EqDecision A} (l : list A) :
  NoDup l -> remove_dups l = l.
Proof.
  induction 1 as [|x l Hx _ IH]; simpl; [done|].
  destruct (decide_rel elem_of x l); [done|]. by rewrite IH.
Qed.

Lemma imap_zip_seq {A B} (f : A -> nat -> B) (l : list A) (n : nat) :
  imap (fun i x => f x (n + i)%nat) l = zip_with f l (seq n (length l)).
Proof.
  revert n. induction l as [|x l IH]; intros n; [done|].
  rewrite imap_cons. simpl. rewrite Nat.add_0_r. f_equal.
  rewrite <- IH. apply imap_ext. intros i y _. simpl. f_equal. lia.
Qed.

Lemma sqlForPartialUpdate_nonempty dataToUpdate jsToSql :
  dataToUpdate <> [] ->
  sqlForPartialUpdate dataToUpdate jsToSql =
  inr (String.concat ", " (imap (setFragment jsToSql) (keys dataToUpdate)),
       values dataToUpdate).
Proof. intros H. by destruct dataToUpdate. Qed.

Lemma clause_tokens_lookup n cols i c :
  cols !! i = Some c ->
  clause_tokens n cols !! (4 * i)%nat = Some (TIdent c) /\
  clause_tokens n cols !! (4 * i + 1)%nat = Some TEq /\
  clause_tokens n cols !! (4 * i + 2)%nat = Some (TParam (n + i)).
Proof.
  revert n i. induction cols as [|c1 cols IH]; intros n i H; [done|].
  destruct i as [|i].
  - injection H as ->. rewrite Nat.add_0_r. by destruct cols.
  - change ((c1 :: cols) !! S i) with (cols !! i) in H.
    destruct cols as [|c2 cols]; [done|].
    destruct (IH (S n) i H) as (H0 & H1 & H2).
    change (clause_tokens n (c1 :: c2 :: cols))
      with (TIdent c1 :: TEq :: TParam n :: TComma :: clause_tokens (S n) (c2 :: cols)).
    replace (n + S i)%nat with (S n + i)%nat by lia.
    replace (4 * S i)%nat with (4 + 4 * i)%nat by lia.
    rewrite <- !Nat.add_assoc.
    by change (forall (a b c d : token) l j, (a :: b :: c :: d :: l) !! (4 + j)%nat = l !! j)
      with (forall (a b c d : token) l (j : nat), l !! j = l !! j) in *.
Qed.

(** C2, as stated, fails: the message of the error is not the lower-case one. *)
Lemma no_data_message_counterexample :
  sqlForPartialUpdate [] ∅ <> inl (BadRequestError "no data").
Proof. discriminate. Qed.

(** C2, amended: whatever the column map, an empty payload makes
    [sqlForPartialUpdate] fail with the bad-request error whose message is
    No data (capital N); it returns no clause and no values; and [Job.update] with an empty payload fails the same way
    without handing a statement to the data store. *)
Theorem sqlForPartialUpdate_no_data (jsToSql : gmap string string) :
  sqlForPartialUpdate [] jsToSql = inl (BadRequestError "No data") /\
  (forall r, sqlForPartialUpdate [] jsToSql <> inr r) /\
  (forall (Db : Type) (query : string -> list JsVal -> Db -> (string + list JsObject) * Db)
          (ID : JsVal) (db : Db),
     update query ID [] db = mkUpdateResult [] db (inl (BadRequestError "No data"))).
Proof.
  split; [reflexivity|]. split; [|reflexivity].
  intros r. discriminate.
Qed.

(** C3: for a payload that is not empty, [sqlForPartialUpdate] returns the
    values of the payload in key order, as many as the payload has distinct
    keys, and a clause made of one fragment per key, quoted column then =$n,
    joined by a comma and a space; read back, the clause has the columns in
    key order and the placeholders 1, 2, ..., n, each once. *)
Theorem sqlForPartialUpdate_placeholders
    (dataToUpdate : JsObject) (jsToSql : gmap string string) :
  dataToUpdate <> [] -> wf_object dataToUpdate ->
  exists setCols vals,
    sqlForPartialUpdate dataToUpdate jsToSql = inr (setCols, vals) /\
    vals = values dataToUpdate /\
    length vals = length (remove_dups (keys dataToUpdate)) /\
    setCols =
      String.concat ", "
        (zip_with (fun k n => quoteIdent (columnFor jsToSql k) +:+ "=$" +:+ string_of_nat n)
           (keys dataToUpdate) (seq 1 (length vals))) /\
    tokenize setCols = Some (clause_tokens 1 (map (columnFor jsToSql) (keys dataToUpdate))) /\
    placeholders setCols = Some (seq 1 (length vals)).
Proof.
  intros Hne Hwf. eexists _, _. split; [by apply sqlForPartialUpdate_nonempty|].
  assert (Hk : keys dataToUpdate <> []) by (by destruct dataToUpdate).
  assert (Hlen : length (values dataToUpdate) = length (keys dataToUpdate)).
  { unfold values, keys. by rewrite !length_map. }
  split; [done|]. split; [|split; [|split]].
  - rewrite remove_dups_NoDup by exact Hwf. exact Hlen.
  - f_equal. rewrite Hlen.
    rewrite <- (imap_zip_seq
      (fun k n => quoteIdent (columnFor jsToSql k) +:+ "=$" +:+ string_of_nat n)).
    apply imap_ext. intros i k _. unfold setFragment. simpl. do 3 f_equal. lia.
  - by apply tokenize_clause.
  - unfold placeholders. rewrite tokenize_clause by done.
    by rewrite placeholders_clause_tokens, length_map, Hlen.
Qed.

Lemma sqlForPartialUpdate_placeholders_witness :
  exists setCols vals,
    sqlForPartialUpdate [("firstName", JsStr "Aliya"); ("age", JsNum 32)]
      {["firstName" := "first_name"]} = inr (setCols, vals) /\
    vals = values [("firstName", JsStr "Aliya"); ("age", JsNum 32)] /\
    length vals = length (remove_dups (keys [("firstName", JsStr "Aliya"); ("age", JsNum 32)])) /\
    setCols =
      String.concat ", "
        (zip_with
           (fun k n => quoteIdent (columnFor {["firstName" := "first_name"]} k)
                       +:+ "=$" +:+ string_of_nat n)
           (keys [("firstName", JsStr "Aliya"); ("age", JsNum 32)])
           (seq 1 (length vals))) /\
    tokenize setCols =
      Some (clause_tokens 1 (map (columnFor {["firstName" := "first_name"]})
                               (keys [("firstName", JsStr "Aliya"); ("age", JsNum 32)]))) /\
    placeholders setCols = Some (seq 1 (length vals)).
Proof.
  apply (sqlForPartialUpdate_placeholders
           [("firstName", JsStr "Aliya"); ("age", JsNum 32)]
           {["firstName" := "first_name"]}).
  - discriminate.
  - apply (bool_decide_unpack _). by vm_compute.
Defined.

(** C4: the key at position i of the payload is written as the column the
    map gives for it, or as itself when the map has no entry; with or without
    the map its placeholder is number i+1, at the same place in the clause,
    and the values are the same.  The helper's own test case with a mapped
    name is the instance. *)
Theorem columnMap_changes_name_only :
  (forall (dataToUpdate : JsObject) (jsToSql : gmap string string) i k v,
     dataToUpdate !! i = Some (k, v) ->
     exists setCols setCols0 vals toks toks0,
       sqlForPartialUpdate dataToUpdate jsToSql = inr (setCols, vals) /\
       sqlForPartialUpdate dataToUpdate ∅ = inr (setCols0, vals) /\
       tokenize setCols = Some toks /\ tokenize setCols0 = Some toks0 /\
       toks !! (4 * i)%nat = Some (TIdent (columnFor jsToSql k)) /\
       toks !! (4 * i + 2)%nat = Some (TParam (i + 1)) /\
       toks0 !! (4 * i)%nat = Some (TIdent k) /\
       toks0 !! (4 * i + 2)%nat = Some (TParam (i + 1)) /\
       length toks = length toks0 /\
       vals !! i = Some v /\
       (forall c, jsToSql !! k = Some c -> columnFor jsToSql k = c) /\
       (jsToSql !! k = None -> columnFor jsToSql k = k)) /\
  sqlForPartialUpdate [("name", JsStr "ethan")] {["name" := "firstName"]} =
  inr (String dquote ("firstName" +:+ String dquote "=$1"), [JsStr "ethan"]).
Proof.
  split; [|reflexivity].
  intros p m i k v Hi.
  assert (Hne : p <> []) by (intros ->; done).
  assert (Hk : keys p <> []) by (by destruct p).
  assert (Hki : keys p !! i = Some k).
  { unfold keys. change (map fst p) with (fst <$> p). by rewrite list_lookup_fmap, Hi. }
  eexists _, _, _, _, _.
  split; [by apply sqlForPartialUpdate_nonempty|].
  split; [by apply sqlForPartialUpdate_nonempty|].
  split; [by apply tokenize_clause|]. split; [by apply tokenize_clause|].
  assert (Hc : forall m', map (columnFor m') (keys p) !! i = Some (columnFor m' k)).
  { intros m'. change (map (columnFor m') (keys p)) with (columnFor m' <$> keys p).
    by rewrite list_lookup_fmap, Hki. }
  destruct (clause_tokens_lookup 1 _ _ _ (Hc m)) as (H0 & _ & H2).
  destruct (clause_tokens_lookup 1 _ _ _ (Hc ∅)) as (H0' & _ & H2').
  rewrite (Nat.add_comm 1 i) in H2, H2'.
  assert (He : columnFor ∅ k = k) by (unfold columnFor; by rewrite lookup_empty).
  rewrite He in H0'.
  repeat split; try done.
  - clear. generalize 1%nat. generalize (keys p). intros l.
    induction l as [|c l IH]; intros n; [done|].
    destruct l as [|c2 l]; [done|].
    change (length (clause_tokens n (map (columnFor m) (c :: c2 :: l)))) with
      (S (S (S (S (length (clause_tokens (S n) (map (columnFor m) (c2 :: l)))))))).
    change (length (clause_tokens n (map (columnFor ∅) (c :: c2 :: l)))) with
      (S (S (S (S (length (clause_tokens (S n) (map (columnFor ∅) (c2 :: l)))))))).
    by rewrite IH.
  - unfold values. change (map snd p) with (snd <$> p). by rewrite list_lookup_fmap, Hi.
  - intros c Hm. unfold columnFor. by rewrite Hm.
  - intros Hm. unfold columnFor. by rewrite Hm.
Qed.

Lemma columnMap_changes_name_only_witness :
  exists setCols setCols0 vals toks toks0,
    sqlForPartialUpdate [("name", JsStr "ethan")] {["name" := "firstName"]} = inr (setCols, vals) /\
    sqlForPartialUpdate [("name", JsStr "ethan")] ∅ = inr (setCols0, vals) /\
    tokenize setCols = Some toks /\ tokenize setCols0 = Some toks0 /\
    toks !! 0%nat = Some (TIdent (columnFor {["name" := "firstName"]} "name")) /\
    toks !! 2%nat = Some (TParam 1) /\
    toks0 !! 0%nat = Some (TIdent "name") /\
    toks0 !! 2%nat = Some (TParam 1) /\
    length toks = length toks0 /\
    vals !! 0%nat = Some (JsStr "ethan") /\
    (forall c, ({["name" := "firstName"]} : gmap string string) !! "name" = Some c ->
               columnFor {["name" := "firstName"]} "name" = c) /\
    ((({["name" := "firstName"]} : gmap string string) !! "name" = None ->
               columnFor {["name" := "firstName"]} "name" = "name")).
Proof.
  apply (proj1 columnMap_changes_name_only
           [("name", JsStr "ethan")] {["name" := "firstName"]} 0%nat "name" (JsStr "ethan")).
  reflexivity.
Defined.

(** * The statement [Job.update] sends *)

Lemma lex_run_sqlHead toks :
  lex_run (LIdle, toks) sqlHead =
  Some (LIdle, TWord "SET" :: TWord "jobs" :: TWord "UPDATE" :: toks).
Proof. reflexivity. Qed.

Lemma lex_run_sqlWhere n toks :
  lex_run (LParam (string_of_nat n), toks) sqlWhere =
  Some (LIdle, TEq :: TWord "id" :: TWord "WHERE" :: TParam n :: toks).
Proof.
  unfold sqlWhere. cbn [lex_run]. rewrite lex_step_param_end by done. reflexivity.
Qed.

Lemma lex_run_sqlReturning n toks :
  lex_run (LParam (string_of_nat n), toks) sqlReturning =
  Some (LWord "company_handle",
        TComma :: TWord "equity" :: TComma :: TWord "salary" :: TComma ::
        TWord "title" :: TComma :: TWord "id" :: TWord "RETURNING" :: TParam n :: toks).
Proof.
  unfold sqlReturning. cbn [lex_run]. rewrite lex_step_param_end by done. reflexivity.
Qed.

(** The whole statement is read back as an UPDATE of jobs with the clause's
    assignments, a WHERE on id with the placeholder that was interpolated,
    and the five RETURNING columns. *)
Lemma tokenize_querySql m ks k :
  ks <> [] ->
  tokenize (querySql (String.concat ", " (imap (setFragment m) ks))
                     ("$" +:+ string_of_nat k)) =
  Some (statement_tokens (map (columnFor m) ks) k).
Proof.
  intros Hne. unfold tokenize, querySql.
  rewrite lex_run_app, lex_run_sqlHead, lex_run_app.
  pose proof (lex_run_clause m ks 0) as H.
  change (fun i => setFragment m (0 + i)) with (setFragment m) in H.
  change (0 + 1)%nat with 1%nat in H. rewrite H. clear H.
  destruct (clause_state_tokens 1 (map (columnFor m) ks)
              [TWord "SET"; TWord "jobs"; TWord "UPDATE"]) as (k' & ts & E & R).
  { by destruct ks. }
  rewrite E, lex_run_app, lex_run_sqlWhere, lex_run_app, lex_run_param,
    lex_run_sqlReturning.
  cbn [mbind option_bind lex_flush]. f_equal.
  unfold statement_tokens. cbn [rev] in *. rewrite R. cbn [rev app].
  by rewrite <- !List.app_assoc.
Qed.

Lemma parse_set_clause n cols rest :
  cols <> [] -> (forall r, rest <> TComma :: r) ->
  parse_set (clause_tokens n cols ++ rest) = Some (zip cols (seq n (length cols)), rest).
Proof.
  intros Hne Hrest. revert n. induction cols as [|c cols IH]; intros n; [done|].
  destruct cols as [|c2 cols].
  - simpl. destruct rest as [|[] rest]; try done. by destruct (Hrest rest).
  - change (clause_tokens n (c :: c2 :: cols) ++ rest)
      with (TIdent c :: TEq :: TParam n :: TComma ::
            (clause_tokens (S n) (c2 :: cols) ++ rest)).
    cbn [parse_set]. rewrite IH by done. reflexivity.
Qed.

Lemma parse_update_statement cols k :
  cols <> [] ->
  parse_update (statement_tokens cols k) =
  Some (mkUpdateStmt "jobs" (zip cols (seq 1 (length cols))) ("id", k) jobs_columns).
Proof.
  intros Hne. unfold statement_tokens.
  cbn [app parse_update String.eqb Ascii.eqb Bool.eqb andb].
  rewrite parse_set_clause by done. reflexivity.
Qed.

Lemma columnFor_empty k : columnFor ∅ k = k.
Proof. unfold columnFor. by rewrite lookup_empty. Qed.

Lemma map_columnFor_empty ks : map (columnFor ∅) ks = ks.
Proof. induction ks as [|k ks IH]; simpl; [done|]. by rewrite columnFor_empty, IH. Qed.

(** ** Removing properties *)

Lemma keys_deleteProp o k : k ∉ keys (deleteProp o k).
Proof.
  unfold keys, deleteProp. induction o as [|[k' v] o IH]; simpl.
  - apply not_elem_of_nil.
  - destruct (String.eqb k' k) eqn:E; simpl; [done|].
    apply String.eqb_neq in E. rewrite not_elem_of_cons. split; [congruence|done].
Qed.

Lemma keys_deleteProp_other o k k' : k ∉ keys o -> k ∉ keys (deleteProp o k').
Proof.
  unfold keys, deleteProp. induction o as [|[k2 v] o IH]; simpl; [done|].
  rewrite not_elem_of_cons. intros [Hne H].
  destruct (String.eqb k2 k'); simpl; [by apply IH|].
  rewrite not_elem_of_cons. split; [done|by apply IH].
Qed.

Lemma getProp_deleteProp_ne o k k' : k <> k' -> getProp (deleteProp o k') k = getProp o k.
Proof.
  intros Hne. unfold deleteProp. induction o as [|[k2 v] o IH]; simpl; [done|].
  destruct (String.eqb k2 k') eqn:E; simpl.
  - apply String.eqb_eq in E. subst k2.
    destruct (String.eqb k' k) eqn:E'; [|done]. apply String.eqb_eq in E'. congruence.
  - by rewrite IH.
Qed.

Lemma getProp_absent o k : k ∉ keys o -> getProp o k = JsUndefined.
Proof.
  unfold keys. induction o as [|[k' v] o IH]; simpl; [done|].
  rewrite not_elem_of_cons. intros [Hne H].
  destruct (String.eqb k' k) eqn:E; [|by apply IH].
  apply String.eqb_eq in E. congruence.
Qed.

Lemma cleaned_drops data k :
  k = "id" \/ k = "company_handle" ->
  truthy (getProp data k) = true -> k ∉ keys (cleaned data).
Proof.
  unfold cleaned. intros [-> | ->] H.
  - rewrite H. destruct (truthy (getProp _ "company_handle")).
    + apply keys_deleteProp_other, keys_deleteProp.
    + apply keys_deleteProp.
  - destruct (truthy (getProp data "id")).
    + rewrite getProp_deleteProp_ne by done. rewrite H. apply keys_deleteProp.
    + rewrite H. apply keys_deleteProp.
Qed.

Lemma cleaned_keeps data k :
  k <> "id" -> k <> "company_handle" -> getProp (cleaned data) k = getProp data k.
Proof.
  intros H1 H2. unfold cleaned.
  destruct (truthy (getProp data "id"));
    destruct (truthy (getProp _ "company_handle"));
    by rewrite ?getProp_deleteProp_ne.
Qed.

(** ** What the store keeps *)

Lemma foldl_assign_lookup params (set : list (string * nat)) (r : gmap string JsVal) k :
  k ∉ map fst set -> foldl (assign params) r set !! k = r !! k.
Proof.
  revert r. induction set as [|[c n] set IH]; intros r H; [done|].
  simpl in H. apply not_elem_of_cons in H as [Hne H].
  simpl. rewrite IH by done. unfold assign. simpl. by rewrite lookup_insert_ne.
Qed.

Lemma exec_update_frame sql_eq st params tbl k :
  k ∉ map fst st.(st_set) ->
  length (exec_update sql_eq st params tbl).2 = length tbl /\
  forall i row, tbl !! i = Some row ->
    exists row', (exec_update sql_eq st params tbl).2 !! i = Some row' /\
                 row' !! k = row !! k.
Proof.
  intros Hk. unfold exec_update.
  destruct (negb (String.eqb _ _)); [by eauto|].
  destruct (negb (forallb known_column _)); [by eauto|].
  destruct (negb (forallb (valid_param params) _)); [by eauto|].
  cbn [snd]. split; [by rewrite length_map|].
  intros i row Hi.
  change (map ?f tbl) with (f <$> tbl). rewrite list_lookup_fmap, Hi. simpl.
  eexists. split; [done|].
  destruct (sql_eq _ _); [by apply foldl_assign_lookup|done].
Qed.

Lemma store_query_update sql_eq ks k params tbl :
  ks <> [] ->
  store_query sql_eq
    (querySql (String.concat ", " (imap (setFragment ∅) ks)) ("$" +:+ string_of_nat k))
    params tbl =
  exec_update sql_eq
    (mkUpdateStmt "jobs" (zip ks (seq 1 (length ks))) ("id", k) jobs_columns) params tbl.
Proof.
  intros Hne. unfold store_query.
  rewrite tokenize_querySql, map_columnFor_empty by done.
  by rewrite parse_update_statement.
Qed.

Lemma fst_zip_seq (ks : list string) n : map fst (zip ks (seq n (length ks))) = ks.
Proof.
  revert n. induction ks as [|k ks IH]; intros n; simpl; [done|]. by rewrite IH.
Qed.

Lemma clause_tokens_ident n cols c : TIdent c ∈ clause_tokens n cols -> c ∈ cols.
Proof.
  revert n. induction cols as [|c1 cols IH]; intros n H.
  - by apply elem_of_nil in H.
  - destruct cols as [|c2 cols].
    + simpl in H. rewrite !elem_of_cons in H.
      destruct H as [[= ->]|[?|[?|?%elem_of_nil]]]; try done. by left.
    + change (clause_tokens n (c1 :: c2 :: cols))
        with (TIdent c1 :: TEq :: TParam n :: TComma :: clause_tokens (S n) (c2 :: cols)) in H.
      rewrite !elem_of_cons in H.
      destruct H as [[= ->]|[?|[?|[?|H]]]]; try done; [by left|].
      right. by apply (IH (S n)).
Qed.


Lemma cleaned_sublist data : sublist (cleaned data) data.
Proof.
  unfold cleaned, deleteProp.
  destruct (truthy (getProp data "id"));
    destruct (truthy (getProp _ "company_handle"));
    repeat (etrans; [apply filter_sublist|]); done.
Qed.

Lemma cleaned_wf data : wf_object data -> wf_object (cleaned data).
Proof.
  unfold wf_object, keys. intros H.
  apply (sublist_NoDup _ (map fst data)); [done|].
  apply (fmap_sublist fst), cleaned_sublist.
Qed.

Lemma filter_head {A} (f : A -> bool) (l : list A) x l' :
  List.filter f l = x :: l' -> exists i, l !! i = Some x /\ f x = true.
Proof.
  induction l as [|y l IH]; simpl; [done|].
  destruct (f y) eqn:E.
  - intros [= -> _]. by exists 0%nat.
  - intros H. destruct (IH H) as (i & Hi & Hx). by exists (S i).
Qed.

Lemma filter_none {A} (f : A -> bool) (l : list A) :
  List.filter f l = [] -> forall x, x ∈ l -> f x = false.
Proof.
  induction l as [|y l IH]; simpl; intros H x Hx.
  - by apply elem_of_nil in Hx.
  - destruct (f y) eqn:E; [done|].
    apply elem_of_cons in Hx as [->|Hx]; [done|by apply IH].
Qed.

Lemma foldl_assign_lookup_set params (set : list (string * nat))
    (r : gmap string JsVal) j k n :
  NoDup (map fst set) -> set !! j = Some (k, n) ->
  foldl (assign params) r set !! k = Some (bound params n).
Proof.
  revert r j. induction set as [|[c m] set IH]; intros r j Hnd Hj; [done|].
  apply NoDup_cons in Hnd as [Hc Hnd]. destruct j as [|j].
  - injection Hj as -> ->. simpl. rewrite foldl_assign_lookup by done.
    unfold assign. simpl. by rewrite lookup_insert_eq.
  - simpl. by apply (IH _ j).
Qed.

(** A successful UPDATE returns the RETURNING columns of the first row whose
    WHERE column matched, as the row stands after the change. *)
Lemma exec_update_first_row sql_eq st params tbl job rows :
  (exec_update sql_eq st params tbl).1 = inr (job :: rows) ->
  exists i row,
    tbl !! i = Some row /\
    sql_eq (column row st.(st_where).1) (bound params st.(st_where).2) = true /\
    (exec_update sql_eq st params tbl).2 !! i = Some (foldl (assign params) row st.(st_set)) /\
    job = map (fun c => (c, column (foldl (assign params) row st.(st_set)) c))
              st.(st_returning).
Proof.
  unfold exec_update.
  destruct (negb (String.eqb _ _)); [done|].
  destruct (negb (forallb known_column _)); [done|].
  destruct (negb (forallb (valid_param params) _)); [done|].
  cbn [fst snd]. intros [= H].
  destruct (List.filter _ tbl) as [|row hits] eqn:F; [done|].
  injection H as <- _.
  destruct (filter_head _ _ _ _ F) as (i & Hi & Hhit).
  exists i, row. split; [done|]. split; [done|]. split; [|done].
  change (map ?f tbl) with (f <$> tbl). rewrite list_lookup_fmap, Hi. simpl.
  by rewrite Hhit.
Qed.

Lemma exec_update_no_row sql_eq st params tbl :
  (exec_update sql_eq st params tbl).1 = inr [] ->
  forall row, row ∈ tbl ->
    sql_eq (column row st.(st_where).1) (bound params st.(st_where).2) = false.
Proof.
  unfold exec_update.
  destruct (negb (String.eqb _ _)); [done|].
  destruct (negb (forallb known_column _)); [done|].
  destruct (negb (forallb (valid_param params) _)); [done|].
  cbn [fst]. intros [= H] row Hrow.
  destruct (List.filter _ tbl) as [|r hits] eqn:F; [|done].
  by apply (filter_none _ _ F).
Qed.

Lemma zip_seq_lookup (ks : list string) n j k :
  ks !! j = Some k -> zip ks (seq n (length ks)) !! j = Some (k, (n + j)%nat).
Proof.
  revert n j. induction ks as [|c ks IH]; intros n j H; [done|].
  destruct j as [|j]; simpl.
  - injection H as ->. by rewrite Nat.add_0_r.
  - rewrite (IH (S n) j) by done. do 2 f_equal. lia.
Qed.

(** ** What [update] returns *)

Ltac update_cases query data db :=
  unfold update; fold (cleaned data);
  destruct (sqlForPartialUpdate (cleaned data) ∅) as [e|[setCols vals]]; [done|];
  destruct (query _ _ db) as [[msg|[|job rows]] db']; done.

Section UpdateFacts.
Context {Db : Type}.
Variable query : string -> list JsVal -> Db -> (string + list JsObject) * Db.

Lemma update_data_after ID data db :
  data_after (update query ID data db) = cleaned data.
Proof.
  update_cases query data db.
Qed.

Lemma update_db_after ID data db :
  db_after (update query ID data db) =
  match sqlForPartialUpdate (cleaned data) ∅ with
  | inl _ => db
  | inr (setCols, vals) =>
      (query (querySql setCols ("$" +:+ string_of_nat (length vals + 1)))
             (vals ++ [ID]) db).2
  end.
Proof.
  update_cases query data db.
Qed.

Lemma update_outcome ID data db :
  outcome (update query ID data db) =
  match sqlForPartialUpdate (cleaned data) ∅ with
  | inl e => inl e
  | inr (setCols, vals) =>
      match (query (querySql setCols ("$" +:+ string_of_nat (length vals + 1)))
                   (vals ++ [ID]) db).1 with
      | inl msg => inl (DatabaseError msg)
      | inr [] => inl (NotFoundError ("No job: " +:+ toString ID))
      | inr (job :: _) => inr job
      end
  end.
Proof.
  update_cases query data db.
Qed.
End UpdateFacts.

Lemma bound_app_last (vals : list JsVal) (ID : JsVal) :
  bound (vals ++ [ID]) (length vals + 1) = ID.
Proof.
  unfold bound. rewrite Nat.add_1_r. simpl.
  by rewrite (lookup_app_r vals [ID]), Nat.sub_diag by lia.
Qed.

Lemma bound_app_value (vals : list JsVal) (ID : JsVal) i v :
  vals !! i = Some v -> bound (vals ++ [ID]) (i + 1) = v.
Proof.
  intros H. unfold bound. rewrite Nat.add_1_r. simpl.
  by rewrite (lookup_app_l_Some _ _ _ _ H).
Qed.

(** C9, as stated, fails: a payload that holds nothing but a company handle
    is not empty, yet [update] empties it and fails with the bad-request
    error; no statement reaches the store, although the row exists. *)
Lemma update_only_company_handle_counterexample :
  [("company_handle", JsStr "new handle")] <> ([] : JsObject) /\
  update (store_query strict_eq) (JsNum 1) [("company_handle", JsStr "new handle")]
         (map row_of_job [j1; j2; j3]) =
  mkUpdateResult [] (map row_of_job [j1; j2; j3]) (inl (BadRequestError "No data")).
Proof. split; [discriminate|reflexivity]. Qed.

(** C9, amended: when the payload is not empty once its truthy id and
    company_handle entries are removed, [update] sends one statement: the SET
    clause of the remaining n entries, WHERE id = placeholder n+1, with the
    n values followed by the identifier as bound values.  Whatever the data
    store, it fails with the not-found error exactly when the statement
    returns no row, passes on a failure of the store, and otherwise returns
    the first returned row.  In the store model, not found means that no row
    has the identifier, and the row returned is the stored row after the
    change: the payload's values in the payload's columns, the others kept. *)
Theorem update_binds_id_last (ID : JsVal) (data : JsObject) :
  cleaned data <> [] ->
  exists setCols vals,
    sqlForPartialUpdate (cleaned data) ∅ = inr (setCols, vals) /\
    vals = values (cleaned data) /\
    tokenize (querySql setCols ("$" +:+ string_of_nat (length vals + 1))) =
      Some (statement_tokens (keys (cleaned data)) (length vals + 1)) /\
    parse_update (statement_tokens (keys (cleaned data)) (length vals + 1)) =
      Some (mkUpdateStmt "jobs" (zip (keys (cleaned data)) (seq 1 (length vals)))
              ("id", (length vals + 1)%nat) jobs_columns) /\
    placeholders (querySql setCols ("$" +:+ string_of_nat (length vals + 1))) =
      Some (seq 1 (length vals + 1)) /\
    length (vals ++ [ID]) = (length vals + 1)%nat /\
    bound (vals ++ [ID]) (length vals + 1) = ID /\
    (forall i v, vals !! i = Some v -> bound (vals ++ [ID]) (i + 1) = v) /\
    (forall (Db : Type)
            (query : string -> list JsVal -> Db -> (string + list JsObject) * Db)
            (db : Db),
       db_after (update query ID data db) =
         (query (querySql setCols ("$" +:+ string_of_nat (length vals + 1)))
                (vals ++ [ID]) db).2 /\
       match (query (querySql setCols ("$" +:+ string_of_nat (length vals + 1)))
                    (vals ++ [ID]) db).1 with
       | inl msg => outcome (update query ID data db) = inl (DatabaseError msg)
       | inr [] =>
           outcome (update query ID data db) =
           inl (NotFoundError ("No job: " +:+ toString ID))
       | inr (job :: _) => outcome (update query ID data db) = inr job
       end /\
       ((exists msg, outcome (update query ID data db) = inl (NotFoundError msg)) <->
        (query (querySql setCols ("$" +:+ string_of_nat (length vals + 1)))
               (vals ++ [ID]) db).1 = inr [])) /\
    (forall (sql_eq : JsVal -> JsVal -> bool) (tbl : list (gmap string JsVal)),
       ((exists msg,
           outcome (update (store_query sql_eq) ID data tbl) = inl (NotFoundError msg)) ->
        forall row, row ∈ tbl -> sql_eq (column row "id") ID = false) /\
       (forall job,
          outcome (update (store_query sql_eq) ID data tbl) = inr job ->
          exists i row row',
            tbl !! i = Some row /\
            sql_eq (column row "id") ID = true /\
            db_after (update (store_query sql_eq) ID data tbl) !! i = Some row' /\
            job = map (fun c => (c, column row' c)) jobs_columns /\
            (forall k, k ∉ keys (cleaned data) -> row' !! k = row !! k) /\
            (wf_object data ->
             forall j k v, cleaned data !! j = Some (k, v) -> row' !! k = Some v))).
Proof.
  intros Hne.
  assert (Hk : keys (cleaned data) <> []) by (by destruct (cleaned data)).
  assert (Hlen : length (values (cleaned data)) = length (keys (cleaned data))).
  { unfold values, keys. by rewrite !length_map. }
  eexists _, _. split; [by apply sqlForPartialUpdate_nonempty|]. split; [done|].
  pose proof (tokenize_querySql ∅ (keys (cleaned data))
                (length (values (cleaned data)) + 1) Hk) as Htok.
  rewrite map_columnFor_empty in Htok.
  split; [exact Htok|].
  split; [|split; [|split; [|split; [|split; [|split]]]]].
  - rewrite parse_update_statement by done. by rewrite Hlen.
  - unfold placeholders. rewrite Htok. f_equal. unfold statement_tokens.
    rewrite !omap_app, placeholders_clause_tokens, <- Hlen.
    rewrite seq_app, Nat.add_1_r. reflexivity.
  - rewrite length_app. reflexivity.
  - apply bound_app_last.
  - apply bound_app_value.
  - intros Db query db. split; [|split].
    + rewrite update_db_after. by rewrite sqlForPartialUpdate_nonempty.
    + rewrite update_outcome, sqlForPartialUpdate_nonempty by done.
      by destruct (query _ _ db).1 as [msg|[|job rows]].
    + rewrite update_outcome, sqlForPartialUpdate_nonempty by done.
      destruct (query _ _ db).1 as [msg|[|job rows]]; split; try done.
      * by intros [msg' ?].
      * by eexists.
      * by intros [msg' ?].
  - intros sql_eq tbl.
    rewrite update_outcome, update_db_after, sqlForPartialUpdate_nonempty by done.
    rewrite store_query_update by done.
    set (st := mkUpdateStmt _ _ _ _).
    set (params := values (cleaned data) ++ [ID]).
    destruct (exec_update sql_eq st params tbl).1 as [msg|[|job rows]] eqn:E.
    + split; [by intros [msg' ?]|done].
    + split; [|done]. intros _ row Hrow.
      pose proof (exec_update_no_row _ _ _ _ E row Hrow) as H.
      subst st params. cbn [st_where fst snd] in H. by rewrite bound_app_last in H.
    + split; [by intros [msg' ?]|]. intros job' [= <-].
      destruct (exec_update_first_row _ _ _ _ _ _ E) as (i & row & Hi & Hhit & Hdb & Hjob).
      exists i, row, (foldl (assign params) row (st_set st)).
      subst st params. cbn [st_where st_set st_returning fst snd] in *.
      rewrite bound_app_last in Hhit.
      split; [done|]. split; [done|]. split; [done|]. split; [done|]. split.
      * intros k Hnk. apply foldl_assign_lookup. by rewrite fst_zip_seq.
      * intros Hwf j k v Hj.
        assert (Hkj : keys (cleaned data) !! j = Some k).
        { unfold keys. change (map fst ?l) with (fst <$> l). by rewrite list_lookup_fmap, Hj. }
        assert (Hvj : values (cleaned data) !! j = Some v).
        { unfold values. change (map snd ?l) with (snd <$> l). by rewrite list_lookup_fmap, Hj. }
        rewrite (foldl_assign_lookup_set _ _ _ j k (1 + j)).
        -- f_equal. rewrite Nat.add_comm. by apply bound_app_value.
        -- rewrite fst_zip_seq. by apply cleaned_wf.
        -- by apply zip_seq_lookup.
Qed.

Lemma update_binds_id_last_witness :
  exists setCols vals,
    sqlForPartialUpdate
      (cleaned updateData) ∅ =
      inr (setCols, vals) /\
    tokenize (querySql setCols ("$" +:+ string_of_nat (length vals + 1))) =
      Some (statement_tokens ["equity"; "salary"; "title"] 4) /\
    placeholders (querySql setCols ("$" +:+ string_of_nat (length vals + 1))) =
      Some [1; 2; 3; 4]%nat /\
    bound (vals ++ [JsNum 1]) 4 = JsNum 1 /\
    outcome (update (store_query strict_eq) (JsNum 1)
               updateData
               (map row_of_job [j1; j2; j3])) =
    inr [("id", JsNum 1); ("title", JsStr "new title"); ("salary", JsNum 500000);
         ("equity", JsStr "0.05"); ("company_handle", JsStr "c1")].
Proof.
  destruct (update_binds_id_last (JsNum 1)
              updateData)
    as (setCols & vals & H1 & _ & H2 & _ & H4 & _ & H6 & _).
  { discriminate. }
  exists setCols, vals.
  injection H1 as <- <-.
  split; [reflexivity|]. split; [exact H2|]. split; [exact H4|].
  split; [exact H6|reflexivity].
Defined.

(** C10, as stated, fails: a payload with a truthy company_handle and the
    falsy id 0 loses its company_handle and keeps its id; the SET clause
    names the id column, and the row with id 1 is stored and returned with
    id 0. *)
Lemma update_zero_id_counterexample :
  truthy (getProp zeroIdData "company_handle") = true /\
  data_after (update (store_query strict_eq) (JsNum 1) zeroIdData
                (map row_of_job [j1; j2; j3])) =
    [("id", JsNum 0); ("title", JsStr "t")] /\
  (exists setCols vals toks,
     sqlForPartialUpdate [("id", JsNum 0); ("title", JsStr "t")] ∅ = inr (setCols, vals) /\
     tokenize setCols = Some toks /\ TIdent "id" ∈ toks) /\
  map row_of_job [j1; j2; j3] !! 0%nat = Some (row_of_job j1) /\
  row_of_job j1 !! "id" = Some (JsNum 1) /\
  (exists row',
     db_after (update (store_query strict_eq) (JsNum 1) zeroIdData
                 (map row_of_job [j1; j2; j3])) !! 0%nat = Some row' /\
     row' !! "id" = Some (JsNum 0)) /\
  outcome (update (store_query strict_eq) (JsNum 1) zeroIdData
             (map row_of_job [j1; j2; j3])) =
    inr [("id", JsNum 0); ("title", JsStr "t"); ("salary", JsNum 100000);
         ("equity", JsStr "0.01"); ("company_handle", JsStr "c1")].
Proof.
  split; [reflexivity|]. split; [reflexivity|]. split.
  { eexists _, _, _. split; [reflexivity|]. split; [reflexivity|]. set_solver. }
  split; [reflexivity|]. split; [reflexivity|]. split; [|reflexivity].
  eexists. split; reflexivity.
Qed.

(** C10, amended: when the payload holds a truthy id, or a truthy
    company_handle, [update] removes that entry from the payload object,
    which the caller sees; the SET clause built from what is left does not
    name that column; and in the store every row has the value in that column
    it had before. *)
Theorem update_drops_protected_columns
    (sql_eq : JsVal -> JsVal -> bool) (ID : JsVal) (data : JsObject)
    (tbl : list (gmap string JsVal)) (k : string) :
  k = "id" \/ k = "company_handle" ->
  truthy (getProp data k) = true ->
  ((k ∉ keys (data_after (update (store_query sql_eq) ID data tbl))) /\
   getProp (data_after (update (store_query sql_eq) ID data tbl)) k = JsUndefined /\
   sublist (data_after (update (store_query sql_eq) ID data tbl)) data /\
   (forall k', k' <> "id" -> k' <> "company_handle" ->
      getProp (data_after (update (store_query sql_eq) ID data tbl)) k' = getProp data k')) /\
  (forall setCols vals,
     sqlForPartialUpdate (data_after (update (store_query sql_eq) ID data tbl)) ∅ =
       inr (setCols, vals) ->
     exists toks, tokenize setCols = Some toks /\ (TIdent k ∉ toks)) /\
  (length (db_after (update (store_query sql_eq) ID data tbl)) = length tbl /\
   forall i row, tbl !! i = Some row ->
     exists row', db_after (update (store_query sql_eq) ID data tbl) !! i = Some row' /\
                  row' !! k = row !! k).
Proof.
  intros Hk Ht. rewrite update_data_after, update_db_after.
  pose proof (cleaned_drops data k Hk Ht) as Hdrop.
  split; [|split].
  - split; [done|]. split; [by apply getProp_absent|].
    split; [apply cleaned_sublist|apply cleaned_keeps].
  - intros setCols vals H.
    destruct (decide (cleaned data = [])) as [E|E]; [by rewrite E in H|].
    rewrite sqlForPartialUpdate_nonempty in H by done. injection H as <- _.
    assert (keys (cleaned data) <> []) by (by destruct (cleaned data)).
    eexists. split; [by apply tokenize_clause|].
    rewrite map_columnFor_empty. by intros ?%clause_tokens_ident.
  - destruct (decide (cleaned data = [])) as [E|E].
    { rewrite E. simpl. split; [done|]. intros i row Hi. by exists row. }
    assert (keys (cleaned data) <> []) by (by destruct (cleaned data)).
    rewrite sqlForPartialUpdate_nonempty by done.
    rewrite store_query_update by done.
    apply exec_update_frame. cbn [st_set]. by rewrite fst_zip_seq.
Qed.

Lemma update_drops_protected_columns_witness :
  ("company_handle"
     ∉ keys (data_after (update (store_query strict_eq) (JsNum 1)
               updateData
               (map row_of_job [j1; j2; j3])))) /\
  (exists row',
     db_after (update (store_query strict_eq) (JsNum 1)
                 updateData
                 (map row_of_job [j1; j2; j3])) !! 0%nat = Some row' /\
     row' !! "company_handle" = Some (JsStr "c1")).
Proof.
  destruct (update_drops_protected_columns strict_eq (JsNum 1)
              updateData
              (map row_of_job [j1; j2; j3]) "company_handle")
    as ((H1 & _) & _ & _ & H3).
  - by right.
  - reflexivity.
  - split; [exact H1|]. exact (H3 0%nat (row_of_job j1) eq_refl).
Defined.

(** * Further properties of [findAll] *)

Section FilterFacts.
Context {A : Type}.
Implicit Types (f g : A -> bool) (l : list A).

Lemma filter_and f g l :
  List.filter f (List.filter g l) = List.filter (fun x => g x && f x) l.
Proof.
  induction l as [|x l IH]; simpl; [done|].
  destruct (g x); simpl; [destruct (f x)|]; by rewrite IH.
Qed.

Lemma filter_idem f l : List.filter f (List.filter f l) = List.filter f l.
Proof.
  rewrite filter_and. apply List.filter_ext. intros x. by destruct (f x).
Qed.

Lemma filter_implies f g l :
  (forall x, f x = true -> g x = true) ->
  List.filter f (List.filter g l) = List.filter f l.
Proof.
  intros H. rewrite filter_and. apply List.filter_ext. intros x.
  destruct (f x) eqn:E; [by rewrite (H x E)|by rewrite andb_false_r].
Qed.

Lemma filter_mono_sublist f l1 l2 :
  sublist l1 l2 -> sublist (List.filter f l1) (List.filter f l2).
Proof.
  induction 1 as [|x l1 l2 _ IH|x l1 l2 _ IH]; simpl.
  - constructor.
  - destruct (f x); [by constructor|done].
  - destruct (f x); [by constructor|done].
Qed.

Lemma filter_all f l : (forall x, In x l -> f x = true) -> List.filter f l = l.
Proof.
  induction l as [|x l IH]; intros H; simpl; [done|].
  rewrite (H x) by (by left). f_equal. apply IH. intros y Hy. apply H. by right.
Qed.

Lemma sublist_StronglySorted (R : A -> A -> Prop) l1 l2 :
  sublist l1 l2 -> StronglySorted R l2 -> StronglySorted R l1.
Proof.
  induction 1 as [|x l1 l2 Hs IH|x l1 l2 Hs IH]; intros H.
  - constructor.
  - apply StronglySorted_inv in H as [H1 H2]. constructor; [by apply IH|].
    rewrite List.Forall_forall in *. intros y Hy. apply H2.
    apply list_elem_of_In. eapply elem_of_sublist; [|done]. by apply list_elem_of_In.
  - apply StronglySorted_inv in H as [H1 _]. by apply IH.
Qed.
End FilterFacts.

Section FindAllFilter.
Context {SB : StringBuiltins}.

(** A call of [findAll] is one filter: every row is judged on its own. *)
Lemma findAll_filter t m e : exists f, forall rows, findAll rows t m e = List.filter f rows.
Proof.
  destruct (stageTitle_filter t) as [ft Ht].
  destruct (stageSalary_filter m) as [fs Hs].
  destruct (stageEquity_filter e) as [fe He].
  exists (fun j => ft j && (fs j && fe j)). intros rows.
  by rewrite findAll_stages, Ht, Hs, He, !filter_and.
Qed.

End FindAllFilter.

Lemma includes_trans (s c d : string) :
  includes s c = true -> includes c d = true -> includes s d = true.
Proof.
  rewrite !includes_spec. intros (p & q & ->) (p' & q' & ->).
  exists (p +:+ p'), (q' +:+ q). by rewrite !str_app_assoc.
Qed.

Lemma CiSubstring_of_empty (t : string) : CiSubstring t EmptyString -> t = EmptyString.
Proof.
  intros ([|a p] & mid & q & H & Hci); [|done].
  destruct mid; [by inversion Hci|done].
Qed.

Section SalaryMonotone.
Context {SB : StringBuiltins}.

(** X1: raising a minimum salary that is not raised to zero can only remove
    rows: the result for the larger minimum is a subsequence of the result for
    the smaller one, the other criteria being the same. *)
Theorem findAll_minSalary_monotone rows t m m' e :
  m <= m' -> m' <> 0 ->
  sublist (findAll rows t (Some m') e) (findAll rows t (Some m) e).
Proof.
  intros Hle Hne. rewrite !findAll_stages.
  destruct (stageEquity_filter e) as [fe He]. rewrite !He.
  apply filter_mono_sublist. cbn [stageSalary].
  assert (E : truthy (JsNum m') = true) by (simpl; by apply negb_true_iff, Z.eqb_neq).
  rewrite E. destruct (truthy (JsNum m)).
  - rewrite <- (filter_implies (minSalaryFilter m') (minSalaryFilter m)).
    + apply filter_sublist.
    + intros j. rewrite !minSalaryFilter_spec. lia.
  - apply filter_sublist.
Qed.

End SalaryMonotone.

Lemma findAll_minSalary_monotone_witness :
  sublist (findAll [j1; j2; j3] None (Some 300000) None)
          (findAll [j1; j2; j3] None (Some 200000) None).
Proof. apply findAll_minSalary_monotone; lia. Defined.

Section TitleCriteria.
Context {SB : StringBuiltins} {SL : LowerCaseLaws SB}.

(** X2: the case of the title criterion does not matter: two criteria that
    differ only in the case of their letters give the same result. *)
Theorem findAll_title_any_case rows t t' m e :
  ci_equal t t' -> findAll rows (Some t) m e = findAll rows (Some t') m e.
Proof.
  intros H. pose proof (toLowerCase_letter_case t t' H) as Hl.
  rewrite !findAll_stages. do 2 f_equal. cbn [stageTitle].
  assert (E : truthy (JsStr t) = truthy (JsStr t')) by (by destruct H).
  rewrite E. destruct (truthy (JsStr t')); [|done].
  apply List.filter_ext. intros j. unfold titleFilter. by rewrite Hl.
Qed.

(** X3: an ASCII title criterion that contains another one, whatever the
    case of the letters, can only give fewer rows: its result is a
    subsequence of the other's.  The titles may be any text. *)
Theorem findAll_title_narrowing rows t t' m e :
  ascii_text t = true -> ascii_text t' = true ->
  CiSubstring t t' ->
  sublist (findAll rows (Some t') m e) (findAll rows (Some t) m e).
Proof.
  intros Ht Ht' H. rewrite !findAll_stages.
  destruct (stageEquity_filter e) as [fe He]; rewrite !He; apply filter_mono_sublist.
  destruct (stageSalary_filter m) as [fs Hs]; rewrite !Hs; apply filter_mono_sublist.
  cbn [stageTitle].
  destruct (truthy (JsStr t')) eqn:E'.
  - destruct (truthy (JsStr t)).
    + rewrite <- (filter_implies (titleFilter t') (titleFilter t)).
      * apply filter_sublist.
      * intros j Hj. unfold titleFilter in *.
        rewrite (toLowerCase_ascii_text _ Ht).
        rewrite (toLowerCase_ascii_text _ Ht') in Hj.
        apply (includes_trans _ _ _ Hj). by apply ci_includes_spec.
    + apply filter_sublist.
  - simpl in E'. apply negb_false_iff, String.eqb_eq in E'. subst t'.
    apply CiSubstring_of_empty in H. by subst t.
Qed.

End TitleCriteria.

Lemma findAll_title_any_case_witness :
  findAll [j1; j2; j3] (Some "TITLE2") None None =
  findAll [j1; j2; j3] (Some "title2") None None.
Proof.
  apply findAll_title_any_case.
  apply lowerAZ_ci_equal. reflexivity.
Defined.

Lemma findAll_title_narrowing_witness :
  sublist (findAll [j1; j2; j3] (Some "Title2") None None)
          (findAll [j1; j2; j3] (Some "LE") None None).
Proof.
  apply findAll_title_narrowing; [reflexivity|reflexivity|].
  apply ci_includes_spec. reflexivity.
Defined.

Section OneFilter.
Context {SB : StringBuiltins}.

(** X4: filtering a result again with the same criteria changes nothing. *)
Theorem findAll_idempotent rows t m e :
  findAll (findAll rows t m e) t m e = findAll rows t m e.
Proof. destruct (findAll_filter t m e) as [f Hf]. rewrite !Hf. apply filter_idem. Qed.

(** X5: the rows are judged one by one: the result for two sequences put
    end to end is the two results put end to end. *)
Theorem findAll_app rows1 rows2 t m e :
  findAll (rows1 ++ rows2) t m e = findAll rows1 t m e ++ findAll rows2 t m e.
Proof. destruct (findAll_filter t m e) as [f Hf]. rewrite !Hf. apply List.filter_app. Qed.

(** X6: rows that come ordered by title, for any ordering of titles, are
    returned ordered by title. *)
Theorem findAll_keeps_title_order (le : string -> string -> Prop) rows t m e :
  ordered_by_title le rows -> ordered_by_title le (findAll rows t m e).
Proof.
  unfold ordered_by_title. apply sublist_StronglySorted.
  destruct (findAll_filter t m e) as [f ->]. apply filter_sublist.
Qed.

End OneFilter.

Lemma findAll_keeps_title_order_witness :
  ordered_by_title String.le (findAll [j1; j2; j3] (Some "2") (Some 200000) None).
Proof.
  apply findAll_keeps_title_order.
  repeat (constructor; [|by repeat constructor]). constructor.
Defined.

Section EquityFlag.
Context {SB : StringBuiltins}.

(** X7: when no row has the number zero as equity, as when every equity is a
    string or null, the equity flag has no effect: any value of it gives the
    result of the call without it. *)
Theorem findAll_equity_flag_no_effect rows t m e :
  Forall (fun j => j.(equity) <> JsNum 0) rows ->
  findAll rows t m e = findAll rows t m None.
Proof.
  intros H. rewrite !findAll_stages.
  destruct e as [e|]; cbn [stageEquity]; [|reflexivity].
  destruct (truthy (JsBool e)); [|reflexivity].
  apply filter_all. intros j Hj.
  destruct (stageSalary_filter m) as [fs Hs]. rewrite Hs in Hj.
  destruct (stageTitle_filter t) as [ft Ht]. rewrite Ht in Hj.
  do 2 apply filter_In_sub in Hj.
  apply hasEquityFilter_spec. rewrite List.Forall_forall in H. by apply H.
Qed.

End EquityFlag.

Lemma findAll_equity_flag_no_effect_witness :
  findAll [j1; jZero; j2] None None (Some true) = findAll [j1; jZero; j2] None None None.
Proof.
  apply findAll_equity_flag_no_effect. by repeat constructor.
Defined.

(** * Further properties of [update], [get] and [remove] *)

(** ** The payload *)

Lemma getProp_elem_of (o : JsObject) k v :
  wf_object o -> (k, v) ∈ o -> getProp o k = v.
Proof.
  unfold wf_object, keys. induction o as [|[k' v'] o IH]; intros Hnd Hin.
  - by apply elem_of_nil in Hin.
  - simpl in Hnd. apply NoDup_cons in Hnd as [Hk' Hnd]. simpl.
    apply elem_of_cons in Hin as [[= -> ->]|Hin].
    + by rewrite String.eqb_refl.
    + destruct (String.eqb k' k) eqn:E; [|by apply IH].
      apply String.eqb_eq in E. subst k'. destruct Hk'.
      change (map fst o) with (fst <$> o). apply list_elem_of_fmap. by exists (k, v).
Qed.

Lemma delete_if_truthy (o : JsObject) k :
  wf_object o ->
  (if truthy (getProp o k) then deleteProp o k else o) =
  List.filter (fun kv => negb (String.eqb kv.1 k && truthy kv.2)) o.
Proof.
  intros Hwf. destruct (truthy (getProp o k)) eqn:E.
  - unfold deleteProp. apply List.filter_ext_in. intros [k' v] Hin%list_elem_of_In. simpl.
    destruct (String.eqb k' k) eqn:Ek; [|done].
    apply String.eqb_eq in Ek. subst k'.
    by rewrite <- (getProp_elem_of o k v Hwf Hin), E.
  - symmetry. apply filter_all. intros [k' v] Hin%list_elem_of_In. simpl.
    destruct (String.eqb k' k) eqn:Ek; [|done].
    apply String.eqb_eq in Ek. subst k'.
    by rewrite <- (getProp_elem_of o k v Hwf Hin), E.
Qed.

Lemma deleted_wf (o : JsObject) k :
  wf_object o -> wf_object (if truthy (getProp o k) then deleteProp o k else o).
Proof.
  intros Hwf. destruct (truthy (getProp o k)); [|done].
  unfold wf_object, keys, deleteProp in *.
  apply (sublist_NoDup _ (map fst o)); [done|].
  apply (fmap_sublist fst), filter_sublist.
Qed.

Lemma cleaned_filter (data : JsObject) :
  wf_object data ->
  cleaned data = List.filter (fun kv => negb (protected kv.1 && truthy kv.2)) data.
Proof.
  intros Hwf. unfold cleaned.
  rewrite (delete_if_truthy _ "company_handle") by (by apply deleted_wf).
  rewrite (delete_if_truthy data "id") by done.
  rewrite filter_and. apply List.filter_ext. intros [k v]. unfold protected. simpl.
  by destruct (String.eqb k "id"), (String.eqb k "company_handle"), (truthy v).
Qed.

(** X8: whatever the store answers, [update] leaves the caller's payload as
    it was except for its id and company_handle entries with a truthy value,
    which are gone; a second call with the same object removes nothing
    more. *)
Theorem update_payload_after {Db : Type}
    (query : string -> list JsVal -> Db -> (string + list JsObject) * Db)
    (ID ID' : JsVal) (data : JsObject) (db db' : Db) :
  wf_object data ->
  data_after (update query ID data db) =
    List.filter (fun kv => negb (protected kv.1 && truthy kv.2)) data /\
  data_after (update query ID' (data_after (update query ID data db)) db') =
    data_after (update query ID data db).
Proof.
  intros Hwf. rewrite !update_data_after. split; [by apply cleaned_filter|].
  rewrite (cleaned_filter (cleaned data)) by (by apply cleaned_wf).
  rewrite (cleaned_filter data) by done. apply filter_idem.
Qed.

Lemma update_payload_after_witness :
  data_after (update (store_query strict_eq) (JsNum 1)
                ([("id", JsNum 0)] ++ updateData) (map row_of_job [j1; j2; j3])) =
  [("id", JsNum 0); ("equity", JsStr "0.05"); ("salary", JsNum 500000);
   ("title", JsStr "new title")].
Proof.
  apply (update_payload_after (store_query strict_eq) (JsNum 1) (JsNum 1)
           ([("id", JsNum 0)] ++ updateData)
           (map row_of_job [j1; j2; j3]) (map row_of_job [j1; j2; j3])).
  apply (bool_decide_unpack _). by vm_compute.
Defined.

(** ** [update] on the store *)

Lemma exec_update_ok sql_eq st params tbl rows :
  (exec_update sql_eq st params tbl).1 = inr rows ->
  forallb known_column (map fst st.(st_set)) = true /\
  exec_update sql_eq st params tbl =
  (inr (map (fun r => row_columns st.(st_returning) (foldl (assign params) r st.(st_set)))
            (List.filter
               (fun r => sql_eq (column r st.(st_where).1) (bound params st.(st_where).2))
               tbl)),
   map (fun r =>
          if sql_eq (column r st.(st_where).1) (bound params st.(st_where).2)
          then foldl (assign params) r st.(st_set) else r) tbl).
Proof.
  unfold exec_update.
  destruct (negb (String.eqb _ _)); [done|].
  destruct (forallb known_column _) eqn:K; [|done].
  destruct (negb (forallb (valid_param params) _)); [done|].
  intros _. split; [|done].
  rewrite forallb_app in K. by apply andb_true_iff in K as [K _].
Qed.

Lemma exec_update_failed sql_eq st params tbl msg :
  (exec_update sql_eq st params tbl).1 = inl msg ->
  (exec_update sql_eq st params tbl).2 = tbl.
Proof.
  unfold exec_update.
  destruct (negb (String.eqb _ _)); [done|].
  destruct (negb (forallb known_column _)); [done|].
  destruct (negb (forallb (valid_param params) _)); done.
Qed.

Lemma update_store sql_eq ID data tbl :
  cleaned data <> [] ->
  update (store_query sql_eq) ID data tbl =
  mkUpdateResult (cleaned data)
    (exec_update sql_eq (update_stmt_of (cleaned data))
       (values (cleaned data) ++ [ID]) tbl).2
    match (exec_update sql_eq (update_stmt_of (cleaned data))
             (values (cleaned data) ++ [ID]) tbl).1 with
    | inl msg => inl (DatabaseError msg)
    | inr [] => inl (NotFoundError ("No job: " +:+ toString ID))
    | inr (job :: _) => inr job
    end.
Proof.
  intros Hne.
  assert (Hk : keys (cleaned data) <> []) by (by destruct (cleaned data)).
  unfold update. fold (cleaned data).
  rewrite sqlForPartialUpdate_nonempty, store_query_update by done.
  fold (update_stmt_of (cleaned data)).
  by destruct (exec_update _ _ _ _) as [[msg|[|job rows]] tbl'].
Qed.

Lemma update_store_empty {Db : Type}
    (query : string -> list JsVal -> Db -> (string + list JsObject) * Db) ID data db :
  cleaned data = [] ->
  update query ID data db = mkUpdateResult [] db (inl (BadRequestError "No data")).
Proof. intros E. unfold update. fold (cleaned data). by rewrite E. Qed.

Lemma map_if_none {A} (hit : A -> bool) (change : A -> A) (l : list A) :
  List.filter hit l = [] -> map (fun r => if hit r then change r else r) l = l.
Proof.
  induction l as [|x l IH]; simpl; [done|].
  destruct (hit x); [done|]. intros H. by rewrite IH.
Qed.

Lemma getProp_row_columns cols r k :
  k ∈ cols -> getProp (row_columns cols r) k = column r k.
Proof.
  unfold row_columns. induction cols as [|c cols IH]; intros H.
  - by apply elem_of_nil in H.
  - simpl. destruct (String.eqb c k) eqn:E.
    + apply String.eqb_eq in E. by subst.
    + apply String.eqb_neq in E. apply elem_of_cons in H as [->|H]; [done|by apply IH].
Qed.

Lemma protected_known k : protected k = true -> k ∈ jobs_columns.
Proof.
  unfold protected. intros [->%String.eqb_eq| ->%String.eqb_eq]%orb_true_iff;
    unfold jobs_columns; set_solver.
Qed.

(** X9: an id or company_handle entry with a falsy value (0, the empty string,
    false, null) is not removed from the payload: it is written to the row,
    and the row [update] returns carries it. *)
Theorem update_writes_falsy_protected
    (sql_eq : JsVal -> JsVal -> bool) (ID : JsVal) (data : JsObject)
    (tbl : list (gmap string JsVal)) (k : string) (v : JsVal) (job : JsObject) :
  wf_object data -> protected k = true -> (k, v) ∈ data -> truthy v = false ->
  outcome (update (store_query sql_eq) ID data tbl) = inr job ->
  (k, v) ∈ data_after (update (store_query sql_eq) ID data tbl) /\
  getProp job k = v.
Proof.
  intros Hwf Hp Hin Hv Hout. rewrite update_data_after.
  assert (Hc : (k, v) ∈ cleaned data).
  { rewrite cleaned_filter by done. apply list_elem_of_In, List.filter_In.
    split; [by apply list_elem_of_In|]. simpl. by rewrite Hv, andb_false_r. }
  split; [done|].
  assert (Hne : cleaned data <> []) by (intros E; rewrite E in Hc; by apply elem_of_nil in Hc).
  rewrite update_store in Hout by done. cbn [outcome] in Hout.
  destruct (exec_update _ _ _ _).1 as [msg|[|job' rows]] eqn:E; try done.
  injection Hout as ->.
  destruct (exec_update_first_row _ _ _ _ _ _ E) as (i & row & _ & _ & _ & ->).
  cbn [update_stmt_of st_returning st_set].
  fold (row_columns jobs_columns
          (foldl (assign (values (cleaned data) ++ [ID])) row
             (zip (keys (cleaned data)) (seq 1 (length (keys (cleaned data))))))).
  rewrite getProp_row_columns by (by apply protected_known).
  apply list_elem_of_lookup in Hc as [j Hj].
  assert (Hkj : keys (cleaned data) !! j = Some k).
  { unfold keys. change (map fst ?l) with (fst <$> l). by rewrite list_lookup_fmap, Hj. }
  assert (Hvj : values (cleaned data) !! j = Some v).
  { unfold values. change (map snd ?l) with (snd <$> l). by rewrite list_lookup_fmap, Hj. }
  unfold column. rewrite (foldl_assign_lookup_set _ _ _ j k (1 + j)).
  - by rewrite (Nat.add_comm 1 j), (bound_app_value _ _ _ _ Hvj).
  - rewrite fst_zip_seq. by apply cleaned_wf.
  - by apply zip_seq_lookup.
Qed.

Lemma update_writes_falsy_protected_witness :
  (("id", JsNum 0) ∈ data_after (update (store_query strict_eq) (JsNum 1)
                         [("id", JsNum 0); ("title", JsStr "t")]
                         (map row_of_job [j1; j2; j3]))) /\
  getProp [("id", JsNum 0); ("title", JsStr "t"); ("salary", JsNum 100000);
           ("equity", JsStr "0.01"); ("company_handle", JsStr "c1")] "id" = JsNum 0.
Proof.
  apply (update_writes_falsy_protected strict_eq (JsNum 1)
           [("id", JsNum 0); ("title", JsStr "t")] (map row_of_job [j1; j2; j3])
           "id" (JsNum 0)).
  - apply (bool_decide_unpack _). by vm_compute.
  - reflexivity.
  - by left.
  - reflexivity.
  - reflexivity.
Defined.

(** X10: an [update] that fails, for an empty payload, an unknown column or
    an identifier no row has, leaves every row of the store as it was. *)
Theorem update_failure_changes_nothing
    (sql_eq : JsVal -> JsVal -> bool) (ID : JsVal) (data : JsObject)
    (tbl : list (gmap string JsVal)) (e : Exn) :
  outcome (update (store_query sql_eq) ID data tbl) = inl e ->
  db_after (update (store_query sql_eq) ID data tbl) = tbl.
Proof.
  destruct (decide (cleaned data = [])) as [E|E].
  { by rewrite update_store_empty. }
  rewrite update_store by done. cbn [outcome db_after].
  destruct (exec_update _ _ _ _).1 as [msg|[|job rows]] eqn:Ex; intros H; [| |done].
  - by apply (exec_update_failed _ _ _ _ msg).
  - destruct (exec_update_ok _ _ _ _ _ Ex) as [_ Hx]. rewrite Hx in *. cbn [fst snd] in *.
    apply map_if_none. destruct (List.filter _ tbl); [done|]. discriminate.
Qed.

Lemma update_failure_changes_nothing_witness :
  db_after (update (store_query strict_eq) (JsNum 99) updateData
              (map row_of_job [j1; j2; j3])) =
  map row_of_job [j1; j2; j3].
Proof.
  apply (update_failure_changes_nothing strict_eq (JsNum 99) updateData
           (map row_of_job [j1; j2; j3]) (NotFoundError "No job: 99")).
  reflexivity.
Defined.

(** X11: [update] keeps the number and the order of the rows, and a row whose
    id is not the identifier stays exactly as it was. *)
Theorem update_leaves_other_rows
    (sql_eq : JsVal -> JsVal -> bool) (ID : JsVal) (data : JsObject)
    (tbl : list (gmap string JsVal)) (i : nat) (row : gmap string JsVal) :
  tbl !! i = Some row -> sql_eq (column row "id") ID = false ->
  length (db_after (update (store_query sql_eq) ID data tbl)) = length tbl /\
  db_after (update (store_query sql_eq) ID data tbl) !! i = Some row.
Proof.
  intros Hi Hmiss.
  destruct (decide (cleaned data = [])) as [E|E].
  { by rewrite update_store_empty. }
  rewrite update_store by done. cbn [db_after].
  destruct (exec_update sql_eq (update_stmt_of (cleaned data))
              (values (cleaned data) ++ [ID]) tbl).1 as [msg|rows] eqn:Ex.
  - by rewrite (exec_update_failed _ _ _ _ msg).
  - destruct (exec_update_ok _ _ _ _ _ Ex) as [_ Hx]. rewrite Hx. cbn [snd].
    split; [by rewrite length_map|].
    change (map ?f tbl) with (f <$> tbl). rewrite list_lookup_fmap, Hi.
    cbn [update_stmt_of st_where fst snd fmap option_fmap option_map].
    by rewrite bound_app_last, Hmiss.
Qed.

Lemma update_leaves_other_rows_witness :
  length (db_after (update (store_query strict_eq) (JsNum 1) updateData
                      (map row_of_job [j1; j2; j3]))) = 3%nat /\
  db_after (update (store_query strict_eq) (JsNum 1) updateData
              (map row_of_job [j1; j2; j3])) !! 1%nat = Some (row_of_job j2).
Proof.
  apply (update_leaves_other_rows strict_eq (JsNum 1) updateData
           (map row_of_job [j1; j2; j3]) 1 (row_of_job j2)); reflexivity.
Defined.

(** ** [get] and [remove] on the store *)

Lemma jobs_store_get sql_eq ID tbl :
  jobs_store sql_eq getSql [ID] tbl =
  (inr (map (row_columns ["title"; "salary"; "equity"; "company_handle"])
            (List.filter (fun r => sql_eq (column r "id") ID) tbl)),
   tbl).
Proof. reflexivity. Qed.

Lemma jobs_store_remove sql_eq ID tbl :
  jobs_store sql_eq removeSql [ID] tbl =
  (inr (map (row_columns ["id"]) (List.filter (fun r => sql_eq (column r "id") ID) tbl)),
   List.filter (fun r => negb (sql_eq (column r "id") ID)) tbl).
Proof. reflexivity. Qed.

Lemma jobs_store_update sql_eq ks k params tbl :
  ks <> [] ->
  jobs_store sql_eq
    (querySql (String.concat ", " (imap (setFragment ∅) ks)) ("$" +:+ string_of_nat k))
    params tbl =
  exec_update sql_eq
    (mkUpdateStmt "jobs" (zip ks (seq 1 (length ks))) ("id", k) jobs_columns) params tbl.
Proof.
  intros Hne. unfold jobs_store.
  rewrite tokenize_querySql, map_columnFor_empty by done.
  by rewrite parse_update_statement.
Qed.

(** On the statements [update] sends, the two stores agree. *)
Lemma update_jobs_store sql_eq ID data tbl :
  update (jobs_store sql_eq) ID data tbl = update (store_query sql_eq) ID data tbl.
Proof.
  destruct (decide (cleaned data = [])) as [E|E].
  { by rewrite !update_store_empty. }
  assert (Hk : keys (cleaned data) <> []) by (by destruct (cleaned data)).
  unfold update. fold (cleaned data).
  rewrite sqlForPartialUpdate_nonempty by done.
  by rewrite jobs_store_update, store_query_update.
Qed.

Lemma filter_none_iff {A} (f : A -> bool) (l : list A) :
  List.filter f l = [] <-> forall x, x ∈ l -> f x = false.
Proof.
  split; [apply filter_none|].
  induction l as [|x l IH]; intros H; simpl; [done|].
  rewrite (H x) by (by left). apply IH. intros y Hy. apply H. by right.
Qed.

Lemma remove_table sql_eq ID tbl :
  (remove (jobs_store sql_eq) ID tbl).1 =
  List.filter (fun r => negb (sql_eq (column r "id") ID)) tbl.
Proof.
  unfold remove. rewrite jobs_store_remove.
  by destruct (map _ (List.filter _ tbl)).
Qed.

(** X12: [get] changes nothing in the store; it fails with the not-found
    error exactly when no row has the identifier, and otherwise returns the
    title, salary, equity and company handle of the first row that has it. *)
Theorem get_first_row_with_id
    (sql_eq : JsVal -> JsVal -> bool) (ID : JsVal) (tbl : list (gmap string JsVal)) :
  (get (jobs_store sql_eq) ID tbl).1 = tbl /\
  ((get (jobs_store sql_eq) ID tbl).2 = inl (NotFoundError ("No job: " +:+ toString ID)) <->
   forall row, row ∈ tbl -> sql_eq (column row "id") ID = false) /\
  (forall job, (get (jobs_store sql_eq) ID tbl).2 = inr job <->
     exists row rest,
       List.filter (fun r => sql_eq (column r "id") ID) tbl = row :: rest /\
       job = row_columns ["title"; "salary"; "equity"; "company_handle"] row).
Proof.
  unfold get. rewrite jobs_store_get. rewrite <- filter_none_iff.
  destruct (List.filter _ tbl) as [|row rest]; cbn [map fst snd].
  - split; [done|]. split; [done|]. intros job. split; [done|].
    by intros (row & rest & ? & _).
  - split; [done|]. split; [done|]. intros job. split.
    + intros [= <-]. by exists row, rest.
    + by intros (row' & rest' & [= <- _] & ->).
Qed.

(** X13: [remove] takes out of the store exactly the rows that have the
    identifier and keeps the others in their order; it fails with the
    not-found error exactly when no row has the identifier, and then the
    store is as it was. *)
Theorem remove_rows_with_id
    (sql_eq : JsVal -> JsVal -> bool) (ID : JsVal) (tbl : list (gmap string JsVal)) :
  (remove (jobs_store sql_eq) ID tbl).1 =
    List.filter (fun r => negb (sql_eq (column r "id") ID)) tbl /\
  ((remove (jobs_store sql_eq) ID tbl).2 =
      inl (NotFoundError ("No job: " +:+ toString ID)) <->
   forall row, row ∈ tbl -> sql_eq (column row "id") ID = false) /\
  ((remove (jobs_store sql_eq) ID tbl).2 = inr tt <->
   exists row, row ∈ tbl /\ sql_eq (column row "id") ID = true) /\
  ((remove (jobs_store sql_eq) ID tbl).2 =
      inl (NotFoundError ("No job: " +:+ toString ID)) ->
   (remove (jobs_store sql_eq) ID tbl).1 = tbl).
Proof.
  unfold remove. rewrite jobs_store_remove. rewrite <- filter_none_iff.
  destruct (List.filter (fun r => sql_eq _ _) tbl) as [|row rest] eqn:F; cbn [map fst snd].
  - split; [done|]. split; [done|]. split.
    + split; [done|]. intros (row & Hin & Hhit).
      by rewrite (proj1 (filter_none_iff _ _) F row Hin) in Hhit.
    + intros _. apply filter_all. intros r Hr%list_elem_of_In.
      by rewrite (proj1 (filter_none_iff _ _) F r Hr).
  - split; [done|]. split; [done|]. split; [|done]. split; [|done]. intros _.
    assert (Hin : In row (List.filter (fun r => sql_eq (column r "id") ID) tbl))
      by (rewrite F; by left).
    apply List.filter_In in Hin as [Hin Hhit]. exists row.
    split; [by apply list_elem_of_In|done].
Qed.

(** X14: after [remove], whatever it returned, the identifier is gone: [get]
    and a second [remove] with it fail with the not-found error, and the
    second [remove] changes nothing. *)
Theorem remove_then_not_found
    (sql_eq : JsVal -> JsVal -> bool) (ID : JsVal) (tbl : list (gmap string JsVal)) :
  (get (jobs_store sql_eq) ID (remove (jobs_store sql_eq) ID tbl).1).2 =
    inl (NotFoundError ("No job: " +:+ toString ID)) /\
  remove (jobs_store sql_eq) ID (remove (jobs_store sql_eq) ID tbl).1 =
    ((remove (jobs_store sql_eq) ID tbl).1,
     inl (NotFoundError ("No job: " +:+ toString ID))).
Proof.
  assert (Hnone : List.filter (fun r => sql_eq (column r "id") ID)
                    (remove (jobs_store sql_eq) ID tbl).1 = []).
  { unfold remove at 1. rewrite jobs_store_remove.
    assert (E : forall rows,
      (let '(r, db') := (inr rows : string + list JsObject,
                         List.filter (fun r => negb (sql_eq (column r "id") ID)) tbl) in
       match r with
       | inl msg => (db', inl (DatabaseError msg))
       | inr [] => (db', inl (NotFoundError ("No job: " +:+ toString ID)))
       | inr (_ :: _) => (db', inr tt)
       end).1 = List.filter (fun r => negb (sql_eq (column r "id") ID)) tbl)
      by (by intros [|? ?]).
    rewrite E. rewrite filter_and. apply filter_none_iff. intros r _.
    by destruct (sql_eq _ _). }
  split.
  - unfold get. rewrite jobs_store_get, Hnone. reflexivity.
  - unfold remove at 1. rewrite jobs_store_remove, Hnone. cbn [map].
    f_equal. apply filter_all. intros r Hr%list_elem_of_In.
    by rewrite (proj1 (filter_none_iff _ _) Hnone r Hr).
Qed.

Lemma filter_map_if {A} (hit : A -> bool) (change : A -> A) (l : list A) :
  (forall x, hit (change x) = hit x) ->
  List.filter hit (map (fun r => if hit r then change r else r) l) =
  map change (List.filter hit l).
Proof.
  intros H. induction l as [|x l IH]; simpl; [done|].
  destruct (hit x) eqn:E; simpl.
  - by rewrite H, E, IH.
  - by rewrite E, IH.
Qed.

(** X15: reading back an update.  When the payload does not write the id
    column, [get] after a successful [update] leaves the store as it is and
    returns the row [update] returned, without its id entry. *)
Theorem update_then_get
    (sql_eq : JsVal -> JsVal -> bool) (ID : JsVal) (data : JsObject)
    (tbl : list (gmap string JsVal)) (job : JsObject) :
  "id" ∉ keys (data_after (update (jobs_store sql_eq) ID data tbl)) ->
  outcome (update (jobs_store sql_eq) ID data tbl) = inr job ->
  get (jobs_store sql_eq) ID (db_after (update (jobs_store sql_eq) ID data tbl)) =
    (db_after (update (jobs_store sql_eq) ID data tbl), inr (drop 1 job)).
Proof.
  rewrite update_jobs_store, update_data_after. intros Hid Hout.
  assert (Hne : cleaned data <> []).
  { intros E. by rewrite update_store_empty in Hout. }
  rewrite update_store in * by done. cbn [outcome db_after] in *.
  set (params := values (cleaned data) ++ [ID]) in *.
  destruct (exec_update sql_eq (update_stmt_of (cleaned data)) params tbl).1
    as [msg|[|job' rows]] eqn:Ex; try done.
  injection Hout as ->.
  destruct (exec_update_ok _ _ _ _ _ Ex) as [Hknown Hx].
  rewrite Hx in Ex |- *. cbn [fst snd update_stmt_of st_set st_where st_returning] in *.
  subst params. rewrite bound_app_last in *.
  set (set := zip (keys (cleaned data)) (seq 1 (length (keys (cleaned data))))) in *.
  set (params := values (cleaned data) ++ [ID]) in *.
  assert (Hsame : forall r, sql_eq (column (foldl (assign params) r set) "id") ID =
                            sql_eq (column r "id") ID).
  { intros r. unfold column. rewrite foldl_assign_lookup; [done|].
    subst set. by rewrite fst_zip_seq. }
  unfold get. rewrite jobs_store_get.
  rewrite (filter_map_if (fun r => sql_eq (column r "id") ID) (fun r => foldl (assign params) r set))
    by exact Hsame.
  destruct (List.filter _ tbl) as [|row hits]; [done|].
  by injection Ex as <- _.
Qed.

Lemma update_then_get_witness :
  get (jobs_store strict_eq) (JsNum 1)
    (db_after (update (jobs_store strict_eq) (JsNum 1) updateData
                 (map row_of_job [j1; j2; j3]))) =
  (db_after (update (jobs_store strict_eq) (JsNum 1) updateData
               (map row_of_job [j1; j2; j3])),
   inr [("title", JsStr "new title"); ("salary", JsNum 500000);
        ("equity", JsStr "0.05"); ("company_handle", JsStr "c1")]).
Proof.
  apply (update_then_get strict_eq (JsNum 1) updateData (map row_of_job [j1; j2; j3])
           [("id", JsNum 1); ("title", JsStr "new title"); ("salary", JsNum 500000);
            ("equity", JsStr "0.05"); ("company_handle", JsStr "c1")]).
  - apply (bool_decide_unpack _). by vm_compute.
  - reflexivity.
Defined.

(** X17: once [remove] has run for an identifier, an [update] for it returns
    no row, whatever the payload, and leaves the store as [remove] left it. *)
Theorem remove_then_update_fails
    (sql_eq : JsVal -> JsVal -> bool) (ID : JsVal) (data : JsObject)
    (tbl : list (gmap string JsVal)) :
  (forall job,
     outcome (update (jobs_store sql_eq) ID data (remove (jobs_store sql_eq) ID tbl).1)
     <> inr job) /\
  db_after (update (jobs_store sql_eq) ID data (remove (jobs_store sql_eq) ID tbl).1) =
  (remove (jobs_store sql_eq) ID tbl).1.
Proof.
  rewrite update_jobs_store.
  rewrite remove_table.
  set (tbl' := List.filter _ tbl).
  assert (Hnone : forall row, row ∈ tbl' -> sql_eq (column row "id") ID = false).
  { intros row Hrow. subst tbl'. apply list_elem_of_In, List.filter_In in Hrow as [_ H].
    by apply negb_true_iff. }
  assert (Hfail : forall job, outcome (update (store_query sql_eq) ID data tbl') <> inr job).
  { intros job Hout.
    destruct (decide (cleaned data = [])) as [E|E].
    { by rewrite update_store_empty in Hout. }
    rewrite update_store in Hout by done. cbn [outcome] in Hout.
    destruct (exec_update _ _ _ _).1 as [msg|[|job' rows]] eqn:Ex; try done.
    destruct (exec_update_first_row _ _ _ _ _ _ Ex) as (i & row & Hi & Hhit & _).
    cbn [update_stmt_of st_where fst snd] in Hhit. rewrite bound_app_last in Hhit.
    rewrite Hnone in Hhit; [done|]. apply list_elem_of_lookup. by exists i. }
  split; [exact Hfail|].
  destruct (decide (cleaned data = [])) as [E|E].
  { by rewrite update_store_empty. }
  rewrite update_store by done. cbn [db_after].
  destruct (exec_update sql_eq (update_stmt_of (cleaned data))
              (values (cleaned data) ++ [ID]) tbl').1 as [msg|rows] eqn:Ex.
  - by apply (exec_update_failed _ _ _ _ msg).
  - destruct (exec_update_ok _ _ _ _ _ Ex) as [_ Hx]. rewrite Hx. cbn [snd].
    apply map_if_none. apply filter_none_iff. intros row Hrow.
    cbn [update_stmt_of st_where fst snd]. rewrite bound_app_last. by apply Hnone.
Qed.
